(** * Watch-stream target state machine and bloom filter

    A shallow embedding of [packages/firestore/scripts/bloom_filter_watch_test.ts]
    (classes [TargetState] and [WatchStream]) and of the [BloomFilter] value
    type exercised by the unit tests that accompany it.

    JavaScript objects are mutable and an exception leaves every mutation made
    before the [throw] in place.  Methods are therefore embedded in an
    exception-and-state monad whose result always carries the state reached,
    also when the method throws. *)

From Stdlib Require Import ZArith List String Bool Lia.
Import ListNotations.
Local Open Scope string_scope.
Local Open Scope Z_scope.
Local Open Scope list_scope.

(** ** Errors *)

(** [TargetStateError] messages, one per [throw] site of [TargetState]. *)
Inductive TargetStateErrorMsg : Type :=
| OnAddedWhenAlreadyAdded
| OnRemovedWhenNotAdded
| OnCurrentWhenNotAdded
| OnResetWhenNotAdded
| OnNoChangeWhenNotAdded
| OnNoChangeWhenNotCurrent.

(** [WatchError] messages, one per [throw] site of [WatchStream]; the
    interpolated values of the template strings are kept as arguments. *)
Inductive WatchErrorMsg : Type :=
| OpenMayOnlyBeCalledOnce
| OpenMayNotBeCalledAfterClose
| OpenMustBeCalledBeforeAddTarget
| AddTargetMayNotBeCalledAfterClose
| TargetIdIsAlreadyUsed (targetId : Z)
| UnknownTargetId (targetId : Z)
| UnknownTargetChangeType (targetChangeType : option string).

Inductive Error : Type :=
| TargetStateError (msg : TargetStateErrorMsg)
| WatchError (msg : WatchErrorMsg)
| TransportError (msg : string).

(** ** Exceptions over mutable state *)

Module Eff.

Definition t (S A : Type) : Type := S -> S * (Error + A).

Definition ret {S A} (a : A) : t S A := fun s => (s, inr a).

Definition bind {S A B} (c : t S A) (k : A -> t S B) : t S B :=
  fun s =>
    match c s with
    | (s', inr a) => k a s'
    | (s', inl e) => (s', inl e)
    end.

Definition throw {S A} (e : Error) : t S A := fun s => (s, inl e).

Definition get {S} : t S S := fun s => (s, inr s).

Definition modify {S} (f : S -> S) : t S unit := fun s => (f s, inr tt).

(** [try { c } catch (err) { handler err }] *)
Definition try_catch {S A} (c : t S A) (handler : Error -> t S A) : t S A :=
  fun s =>
    match c s with
    | (s', inl e) => handler e s'
    | r => r
    end.

(** [for (const x of xs) { body x }] *)
Fixpoint for_of {S X} (xs : list X) (body : X -> t S unit) : t S unit :=
  match xs with
  | [] => ret tt
  | x :: xs' => bind (body x) (fun _ => for_of xs' body)
  end.

(** [Array.from(xs, f)] where [f] may throw. *)
Fixpoint map_from {S X Y} (xs : list X) (f : X -> t S Y) : t S (list Y) :=
  match xs with
  | [] => ret []
  | x :: xs' =>
      bind (f x) (fun y => bind (map_from xs' f) (fun ys => ret (y :: ys)))
  end.

(** Run a computation on a component of the state. *)
Definition zoom {S T A} (proj : S -> T) (upd : T -> S -> S) (c : t T A)
  : t S A :=
  fun s => let (t', r) := c (proj s) in (upd t' s, r).

End Eff.

Declare Scope eff_scope.
Delimit Scope eff_scope with eff.
Notation "x <- c ;; k" := (Eff.bind c (fun x => k))
  (at level 61, c at next level, right associativity) : eff_scope.
Notation "c ;; k" := (Eff.bind c (fun _ => k))
  (at level 61, right associativity) : eff_scope.
Local Open Scope eff_scope.

Definition threw {S A} (r : S * (Error + A)) : bool :=
  match snd r with inl _ => true | inr _ => false end.

(** ** TargetState *)

(** [string | Uint8Array] *)
Inductive Token : Type :=
| TokenString (s : string)
| TokenBytes (b : list Byte.byte).

Record TargetState : Type := mkTargetState {
  _added : bool;
  _current : bool;
  _resumeToken : option Token
}.

(** [new TargetState()] *)
Definition TargetState_new : TargetState := mkTargetState false false None.

Definition set_added (b : bool) (this : TargetState) : TargetState :=
  mkTargetState b (_current this) (_resumeToken this).

Definition set_current (b : bool) (this : TargetState) : TargetState :=
  mkTargetState (_added this) b (_resumeToken this).

Definition set_resumeToken (t : option Token) (this : TargetState)
  : TargetState :=
  mkTargetState (_added this) (_current this) t.

Definition onAdded : Eff.t TargetState unit :=
  this <- Eff.get ;;
  if _added this then
    Eff.throw (TargetStateError OnAddedWhenAlreadyAdded)
  else
    Eff.modify (set_added true) ;;
    Eff.modify (set_current false).

Definition onRemoved : Eff.t TargetState unit :=
  this <- Eff.get ;;
  if negb (_added this) then
    Eff.throw (TargetStateError OnRemovedWhenNotAdded)
  else
    Eff.modify (set_added false) ;;
    Eff.modify (set_current false).

Definition onCurrent : Eff.t TargetState unit :=
  this <- Eff.get ;;
  if negb (_added this) then
    Eff.throw (TargetStateError OnCurrentWhenNotAdded)
  else
    Eff.modify (set_current true).

Definition onReset : Eff.t TargetState unit :=
  this <- Eff.get ;;
  if negb (_added this) then
    Eff.throw (TargetStateError OnResetWhenNotAdded)
  else
    Eff.modify (set_current false).

Definition onNoChange (resumeToken : option Token) : Eff.t TargetState unit :=
  this <- Eff.get ;;
  if negb (_added this) then
    Eff.throw (TargetStateError OnNoChangeWhenNotAdded)
  else if negb (_current this) then
    Eff.throw (TargetStateError OnNoChangeWhenNotCurrent)
  else
    match resumeToken with
    | Some _ => Eff.modify (set_resumeToken resumeToken)
    | None => Eff.ret tt
    end.

(** ** The target registry: [Map<number, TargetState>]

    A JavaScript [Map] iterates in insertion order and [set] on a present key
    replaces the value in place, so the registry is an association list. *)

Module JsMap.

Definition t (V : Type) : Type := list (Z * V).

Definition empty {V} : t V := [].

Fixpoint get {V} (m : t V) (k : Z) : option V :=
  match m with
  | [] => None
  | (k', v) :: m' => if k' =? k then Some v else get m' k
  end.

Definition has {V} (m : t V) (k : Z) : bool :=
  match get m k with Some _ => true | None => false end.

Fixpoint set {V} (m : t V) (k : Z) (v : V) : t V :=
  match m with
  | [] => [(k, v)]
  | (k', v') :: m' =>
      if k' =? k then (k, v) :: m' else (k', v') :: set m' k v
  end.

Definition keys {V} (m : t V) : list Z := map fst m.

Definition values {V} (m : t V) : list V := map snd m.

(** Keys of a [Map] are pairwise distinct. *)
Definition wf {V} (m : t V) : Prop := NoDup (keys m).

End JsMap.

(** ** Wire messages *)

(** [ListenRequest] as [addTarget] builds it. *)
Record FieldFilter : Type := mkFieldFilter {
  fieldPath : string;
  op : string;
  stringValue : string
}.

Record StructuredQuery : Type := mkStructuredQuery {
  from : list string;
  where_ : FieldFilter
}.

Record QueryTarget : Type := mkQueryTarget {
  parent : string;
  structuredQuery : StructuredQuery
}.

Record AddTarget : Type := mkAddTarget {
  targetId : Z;
  query : QueryTarget
}.

Record ListenRequest : Type := mkListenRequest {
  addTarget_ : AddTarget
}.

(** [TargetChange]: every field is optional on the wire. *)
Record TargetChange : Type := mkTargetChange {
  targetIds : option (list Z);
  targetChangeType : option string;
  resumeToken : option Token
}.

(** The payloads of the other response kinds are never inspected. *)
Inductive DocumentChange : Type := mkDocumentChange.
Inductive DocumentDelete : Type := mkDocumentDelete.
Inductive DocumentRemove : Type := mkDocumentRemove.
Inductive ExistenceFilter : Type := mkExistenceFilter.

Record ListenResponse : Type := mkListenResponse {
  targetChange : option TargetChange;
  documentChange : option DocumentChange;
  documentRemove : option DocumentRemove;
  documentDelete : option DocumentDelete;
  filter : option ExistenceFilter
}.

(** ** Promises *)

(** Modelled from the spec: [Deferred] of [test/util/promise] is imported but
    not part of the sources; section 9 describes it as a single-resolution
    future that is satisfied exactly once. *)
Inductive Deferred : Type :=
| Pending
| Resolved
| Rejected (e : Error).

Definition resolve (d : Deferred) : Deferred :=
  match d with Pending => Resolved | _ => d end.

Definition reject (e : Error) (d : Deferred) : Deferred :=
  match d with Pending => Rejected e | _ => d end.

(** ** The transport collaborator

    [Connection] and [Stream] are interfaces of the platform layer.  The model
    records every call made on them, lets any call throw as an oracle
    decides, and keeps for each stream the callbacks registered on it. *)

Definition Handle : Type := nat.

Inductive TransportCall : Type :=
| OpenStream (rpcName : string)
| StreamOnOpen (h : Handle)
| StreamOnClose (h : Handle)
| StreamOnMessage (h : Handle)
| StreamSend (h : Handle) (msg : ListenRequest)
| StreamClose (h : Handle).

Definition Faults : Type := TransportCall -> option Error.

Definition no_faults : Faults := fun _ => None.

(** What [open()] attached to one stream: the [deferred] local that its
    closures capture and which of the three callbacks got registered. *)
Record StreamCallbacks : Type := mkStreamCallbacks {
  deferred : Deferred;
  cbOpen : bool;
  cbClose : bool;
  cbMessage : bool
}.

(** ** WatchStream *)

Record WatchStream : Type := mkWatchStream {
  _stream : option Handle;
  _closed : bool;
  _closedDeferred : Deferred;
  _targets : JsMap.t TargetState;
  _projectId : string
}.

(** [new WatchStream(connection, projectId)] *)
Definition WatchStream_new (projectId : string) : WatchStream :=
  mkWatchStream None false Pending JsMap.empty projectId.

Definition set_stream (h : option Handle) (o : WatchStream) : WatchStream :=
  mkWatchStream h (_closed o) (_closedDeferred o) (_targets o) (_projectId o).

Definition set_closed (b : bool) (o : WatchStream) : WatchStream :=
  mkWatchStream (_stream o) b (_closedDeferred o) (_targets o) (_projectId o).

Definition set_closedDeferred (d : Deferred) (o : WatchStream) : WatchStream :=
  mkWatchStream (_stream o) (_closed o) d (_targets o) (_projectId o).

Definition set_targets (m : JsMap.t TargetState) (o : WatchStream)
  : WatchStream :=
  mkWatchStream (_stream o) (_closed o) (_closedDeferred o) m (_projectId o).

(** The object together with its connection. *)
Record World : Type := mkWorld {
  this : WatchStream;
  streams : list StreamCallbacks;
  calls : list TransportCall
}.

Definition World_new (projectId : string) : World :=
  mkWorld (WatchStream_new projectId) [] [].

Definition set_this (o : WatchStream) (w : World) : World :=
  mkWorld o (streams w) (calls w).

Definition set_streams (l : list StreamCallbacks) (w : World) : World :=
  mkWorld (this w) l (calls w).

Definition log_call (c : TransportCall) (w : World) : World :=
  mkWorld (this w) (streams w) (calls w ++ [c]).

Definition on_this {A} (c : Eff.t WatchStream A) : Eff.t World A :=
  Eff.zoom this set_this c.

(** One call on the transport: it is made, then it returns or throws. *)
Definition transport (faults : Faults) (c : TransportCall)
  : Eff.t World unit :=
  Eff.modify (log_call c) ;;
  match faults c with
  | Some e => Eff.throw e
  | None => Eff.ret tt
  end.

Fixpoint update_nth {A} (n : nat) (f : A -> A) (l : list A) : list A :=
  match l, n with
  | [], _ => []
  | x :: l', O => f x :: l'
  | x :: l', S n' => x :: update_nth n' f l'
  end.

Definition update_stream (h : Handle) (f : StreamCallbacks -> StreamCallbacks)
  : Eff.t World unit :=
  Eff.modify (fun w => set_streams (update_nth h f (streams w)) w).

Definition set_deferred (d : Deferred) (s : StreamCallbacks) : StreamCallbacks :=
  mkStreamCallbacks d (cbOpen s) (cbClose s) (cbMessage s).

Definition set_cbOpen (s : StreamCallbacks) : StreamCallbacks :=
  mkStreamCallbacks (deferred s) true (cbClose s) (cbMessage s).

Definition set_cbClose (s : StreamCallbacks) : StreamCallbacks :=
  mkStreamCallbacks (deferred s) (cbOpen s) true (cbMessage s).

Definition set_cbMessage (s : StreamCallbacks) : StreamCallbacks :=
  mkStreamCallbacks (deferred s) (cbOpen s) (cbClose s) true.

(** [connection.openStream(rpcName, null, null)]: a new stream, on which
    nothing is registered yet. *)
Definition openStream (faults : Faults) (rpcName : string)
  : Eff.t World Handle :=
  transport faults (OpenStream rpcName) ;;
  w <- Eff.get ;;
  Eff.modify (set_streams
                (streams w ++ [mkStreamCallbacks Pending false false false])) ;;
  Eff.ret (List.length (streams w)).

Definition stream_onOpen (faults : Faults) (h : Handle) : Eff.t World unit :=
  transport faults (StreamOnOpen h) ;; update_stream h set_cbOpen.

Definition stream_onClose (faults : Faults) (h : Handle) : Eff.t World unit :=
  transport faults (StreamOnClose h) ;; update_stream h set_cbClose.

Definition stream_onMessage (faults : Faults) (h : Handle)
  : Eff.t World unit :=
  transport faults (StreamOnMessage h) ;; update_stream h set_cbMessage.

Definition stream_send (faults : Faults) (h : Handle) (msg : ListenRequest)
  : Eff.t World unit :=
  transport faults (StreamSend h msg).

Definition stream_close (faults : Faults) (h : Handle) : Eff.t World unit :=
  transport faults (StreamClose h).

(** Where an [async] method stands when its synchronous part is over: it
    has returned, or it is suspended on a promise. *)
Inductive DeferredRef : Type :=
| OpenDeferred (h : Handle)
| ClosedDeferred.

Inductive Async : Type :=
| Returned
| Awaits (d : DeferredRef).

Definition deferred_of (w : World) (d : DeferredRef) : Deferred :=
  match d with
  | OpenDeferred h =>
      match nth_error (streams w) h with
      | Some s => deferred s
      | None => Pending
      end
  | ClosedDeferred => _closedDeferred (this w)
  end.

(** The state of the promise an [async] method returned. *)
Definition outcome (w : World) (a : Async) : Deferred :=
  match a with
  | Returned => Resolved
  | Awaits d => deferred_of w d
  end.

Definition is_some {A} (o : option A) : bool :=
  match o with Some _ => true | None => false end.

Definition open (faults : Faults) : Eff.t World Async :=
  w <- Eff.get ;;
  if is_some (_stream (this w)) then
    Eff.throw (WatchError OpenMayOnlyBeCalledOnce)
  else if _closed (this w) then
    Eff.throw (WatchError OpenMayNotBeCalledAfterClose)
  else
    stream <- openStream faults "Listen" ;;
    Eff.try_catch
      (stream_onOpen faults stream ;;
       stream_onClose faults stream ;;
       stream_onMessage faults stream)
      (fun err => stream_close faults stream ;; Eff.throw err) ;;
    on_this (Eff.modify (set_stream (Some stream))) ;;
    Eff.ret (Awaits (OpenDeferred stream)).

Definition close (faults : Faults) : Eff.t World Async :=
  w <- Eff.get ;;
  if _closed (this w) then
    Eff.ret Returned
  else
    on_this (Eff.modify (set_closed true)) ;;
    match _stream (this w) with
    | None => Eff.ret Returned
    | Some stream =>
        stream_close faults stream ;;
        Eff.ret (Awaits ClosedDeferred)
    end.

Definition addTarget (faults : Faults)
  (targetId : Z) (collectionId keyFilter valueFilter : string)
  : Eff.t World unit :=
  w <- Eff.get ;;
  match _stream (this w) with
  | None => Eff.throw (WatchError OpenMustBeCalledBeforeAddTarget)
  | Some stream =>
      if _closed (this w) then
        Eff.throw (WatchError AddTargetMayNotBeCalledAfterClose)
      else if JsMap.has (_targets (this w)) targetId then
        Eff.throw (WatchError (TargetIdIsAlreadyUsed targetId))
      else
        let target :=
          mkListenRequest
            (mkAddTarget targetId
               (mkQueryTarget
                  ("projects/" ++ _projectId (this w)
                     ++ "/databases/(default)/documents")%string
                  (mkStructuredQuery [collectionId]
                     (mkFieldFilter keyFilter "EQUAL" valueFilter)))) in
        stream_send faults stream target ;;
        on_this (Eff.modify (fun o =>
          set_targets (JsMap.set (_targets o) targetId TargetState_new) o))
  end.

(** A [TargetState] object is reachable only through the registry, where
    [addTarget] stores each new object under one key that is never deleted
    or overwritten, so a reference to it is that key.  [invoke] calls a method
    on the referenced object: the mutation is seen through the registry.
    References are only ever taken from the registry, so the last branch is
    never reached. *)
Definition invoke (ref : Z) (method : Eff.t TargetState unit)
  : Eff.t WatchStream unit :=
  fun o =>
    match JsMap.get (_targets o) ref with
    | Some targetState =>
        let (targetState', r) := method targetState in
        (set_targets (JsMap.set (_targets o) ref targetState') o, r)
    | None => (o, inr tt)
    end.

(** The arrow function given to [Array.from]: the registered object of a
    listed identifier, or a throw. *)
Definition targetState_for (targetId : Z) : Eff.t WatchStream Z :=
  o <- Eff.get ;;
  match JsMap.get (_targets o) targetId with
  | None => Eff.throw (WatchError (UnknownTargetId targetId))
  | Some _ => Eff.ret targetId
  end.

(** The array returned holds references: the listed objects, or for an
    empty list [Array.from(this._targets.values())], the objects of the whole
    registry in insertion order. *)
Definition _targetStatesForTargetChange (targetChange : TargetChange)
  : Eff.t WatchStream (list Z) :=
  let targetIds := targetIds targetChange in
  targetStates <-
    Eff.map_from
      (match targetIds with Some ids => ids | None => [] end)
      targetState_for ;;
  if (0 <? List.length targetStates)%nat then
    Eff.ret targetStates
  else
    o <- Eff.get ;;
    Eff.ret (JsMap.keys (_targets o)).

(** The [switch] in the body of the loop of [_onTargetChange]. *)
Definition switch_targetChangeType (targetChange : TargetChange)
  (targetState : Z) : Eff.t WatchStream unit :=
  match targetChangeType targetChange with
  | Some ty =>
      if (ty =? "ADD")%string then
        invoke targetState onAdded
      else if (ty =? "REMOVE")%string then
        invoke targetState onRemoved
      else if (ty =? "CURRENT")%string then
        invoke targetState onCurrent
      else if (ty =? "RESET")%string then
        invoke targetState onReset
      else if (ty =? "NO_CHANGE")%string then
        invoke targetState (onNoChange (resumeToken targetChange))
      else
        Eff.throw
          (WatchError (UnknownTargetChangeType (targetChangeType targetChange)))
  | None =>
      Eff.throw
        (WatchError (UnknownTargetChangeType (targetChangeType targetChange)))
  end.

Definition _onTargetChange (targetChange : TargetChange)
  : Eff.t WatchStream unit :=
  targetStates <- _targetStatesForTargetChange targetChange ;;
  Eff.for_of targetStates (switch_targetChangeType targetChange).

Definition _onDocumentChange (documentChange : DocumentChange)
  : Eff.t WatchStream unit := Eff.ret tt.

Definition _onDocumentRemove (documentRemove : DocumentRemove)
  : Eff.t WatchStream unit := Eff.ret tt.

Definition _onDocumentDelete (documentDelete : DocumentDelete)
  : Eff.t WatchStream unit := Eff.ret tt.

Definition _onExistenceFilter (existenceFilter : ExistenceFilter)
  : Eff.t WatchStream unit := Eff.ret tt.

Definition _onMessageReceived (msg : ListenResponse)
  : Eff.t WatchStream unit :=
  match targetChange msg with
  | Some tc => _onTargetChange tc
  | None =>
  match documentChange msg with
  | Some dc => _onDocumentChange dc
  | None =>
  match documentRemove msg with
  | Some dr => _onDocumentRemove dr
  | None =>
  match documentDelete msg with
  | Some dd => _onDocumentDelete dd
  | None =>
  match filter msg with
  | Some f => _onExistenceFilter f
  | None => Eff.ret tt
  end end end end end.

(** *** The callbacks [open()] registers

    Each runs only if it was registered on the stream that fires it. *)

Definition registered (sel : StreamCallbacks -> bool) (h : Handle) (w : World)
  : bool :=
  match nth_error (streams w) h with
  | Some s => sel s
  | None => false
  end.

(** [() => { deferred.resolve(null); }] *)
Definition fire_onOpen (h : Handle) : Eff.t World unit :=
  w <- Eff.get ;;
  if registered cbOpen h w then
    update_stream h (fun s => set_deferred (resolve (deferred s)) s)
  else Eff.ret tt.

(** [err => { if (err) { ... reject ... } else { ... resolve ... } }] *)
Definition fire_onClose (h : Handle) (err : option Error)
  : Eff.t World unit :=
  w <- Eff.get ;;
  if registered cbClose h w then
    match err with
    | Some e =>
        update_stream h (fun s => set_deferred (reject e (deferred s)) s) ;;
        on_this (Eff.modify (fun o =>
          set_closedDeferred (reject e (_closedDeferred o)) o))
    | None =>
        update_stream h (fun s => set_deferred (resolve (deferred s)) s) ;;
        on_this (Eff.modify (fun o =>
          set_closedDeferred (resolve (_closedDeferred o)) o))
    end
  else Eff.ret tt.

(** [msg => { this._onMessageReceived(msg as ListenResponse); }] *)
Definition fire_onMessage (h : Handle) (msg : ListenResponse)
  : Eff.t World unit :=
  w <- Eff.get ;;
  if registered cbMessage h w then on_this (_onMessageReceived msg)
  else Eff.ret tt.

(** *** Histories of one stream

    The execution model is cooperative and single threaded: between two
    suspension points a method or a callback runs to its end.  A history is
    a sequence of such atomic steps, each with the faults the transport
    shows while it runs. *)

Inductive Step : Type :=
| CallOpen
| CallClose
| CallAddTarget (targetId : Z) (collectionId keyFilter valueFilter : string)
| FireOnOpen (h : Handle)
| FireOnClose (h : Handle) (err : option Error)
| FireOnMessage (h : Handle) (msg : ListenResponse).

Definition step (faults : Faults) (l : Step) (w : World) : World :=
  match l with
  | CallOpen => fst (open faults w)
  | CallClose => fst (close faults w)
  | CallAddTarget targetId collectionId keyFilter valueFilter =>
      fst (addTarget faults targetId collectionId keyFilter valueFilter w)
  | FireOnOpen h => fst (fire_onOpen h w)
  | FireOnClose h err => fst (fire_onClose h err w)
  | FireOnMessage h msg => fst (fire_onMessage h msg w)
  end.

Fixpoint run (history : list (Faults * Step)) (w : World) : World :=
  match history with
  | [] => w
  | (faults, l) :: history' => run history' (step faults l w)
  end.

(** How many times [close()] was called on stream [h]. *)
Fixpoint releases (h : Handle) (cs : list TransportCall) : nat :=
  match cs with
  | [] => O
  | StreamClose h' :: cs' =>
      if Nat.eqb h' h then S (releases h cs') else releases h cs'
  | _ :: cs' => releases h cs'
  end.

(** How many streams were requested from the connection. *)
Fixpoint acquisitions (cs : list TransportCall) : nat :=
  match cs with
  | [] => O
  | OpenStream _ :: cs' => S (acquisitions cs')
  | _ :: cs' => acquisitions cs'
  end.

(** How many messages were sent on any stream. *)
Fixpoint sends (cs : list TransportCall) : nat :=
  match cs with
  | [] => O
  | StreamSend _ _ :: cs' => S (sends cs')
  | _ :: cs' => sends cs'
  end.

(** ** BloomFilter *)

Module BloomFilter.

Inductive BloomFilterError : Type :=
| InvalidPadding (padding : Z)
| InvalidHashCount (hashCount : Z).

Record t : Type := mk {
  bits : list Byte.byte;
  padding : Z;
  hashCount : Z;
  bitCount : Z
}.

Definition size (bits : list Byte.byte) : Z := Z.of_nat (List.length bits).

(** Modelled from the spec: the constructor of class [BloomFilter]
    ([src/remote/bloom_filter.ts]) is called by the unit tests but its source
    is absent.  Section 4.1 gives the validation, in order: for an empty
    bitmap the padding must be [0], then the hash count non-negative; for a
    non-empty bitmap the padding must be in [0,7], then the hash count at
    least [1].  [bitCount] is [bits.length * 8 - padding], or [0] for an
    empty bitmap. *)
Definition new (bits : list Byte.byte) (padding hashCount : Z)
  : BloomFilterError + t :=
  if size bits =? 0 then
    if negb (padding =? 0) then inl (InvalidPadding padding)
    else if hashCount <? 0 then inl (InvalidHashCount hashCount)
    else inr (mk bits padding hashCount 0)
  else
    if negb ((0 <=? padding) && (padding <=? 7)) then
      inl (InvalidPadding padding)
    else if hashCount <? 1 then inl (InvalidHashCount hashCount)
    else inr (mk bits padding hashCount (size bits * 8 - padding)).

Definition is_InvalidPadding (r : BloomFilterError + t) : bool :=
  match r with inl (InvalidPadding _) => true | _ => false end.

Definition is_InvalidHashCount (r : BloomFilterError + t) : bool :=
  match r with inl (InvalidHashCount _) => true | _ => false end.

Section Membership.

(** The spec fixes neither the hash function, nor the text encoder, nor
    which bit of a byte has index [0]; they are taken as given. *)
Variable utf8 : string -> list Byte.byte.
Variable hash128 : list Byte.byte -> Z * Z.
Variable bit_of_byte : Byte.byte -> Z -> bool.

Definition isBitSet (this : t) (index : Z) : bool :=
  match nth_error (bits this) (Z.to_nat (index / 8)) with
  | Some byte => bit_of_byte byte (index mod 8)
  | None => false
  end.

(** [h1] and [h2] are 64-bit integers and so is [h1 + i*h2]: the sum wraps
    around at [2^64] and, read as unsigned, is never negative when it is
    reduced modulo [bitCount]. *)
Definition probe (this : t) (h1 h2 i : Z) : Z :=
  ((h1 + i * h2) mod 2 ^ 64) mod bitCount this.

(** Probes [i], [i+1], ... ([n] of them), stopping at the first unset
    bit. *)
Fixpoint probes (this : t) (h1 h2 i : Z) (n : nat) : bool :=
  match n with
  | O => true
  | S n' =>
      if isBitSet this (probe this h1 h2 i)
      then probes this h1 h2 (i + 1) n'
      else false
  end.

(** Modelled from the spec: [mightContain] of the absent class, section
    4.1: [false] when [bitCount] is [0]; otherwise the key's bytes are
    hashed into [h1] and [h2] and bit [(h1 + i*h2) mod bitCount] (byte
    [p / 8], bit [p % 8]) is tested for [i] in [[0, hashCount)]. *)
Definition mightContain (this : t) (key : string) : bool :=
  if bitCount this =? 0 then false
  else
    let (h1, h2) := hash128 (utf8 key) in
    probes this h1 h2 0 (Z.to_nat (hashCount this)).

End Membership.

End BloomFilter.

(** ** The script: [main]

    [main] is an [async] function: it runs until an [await] on a pending
    promise, and goes on once the transport has settled it.  Between two
    suspensions only callbacks of the transport run.  [parseArgs] and
    [createConnection] supply the project identifier, the host and the
    connection; they are inputs here. *)

(** A callback of the transport firing on a stream. *)
Inductive Callback : Type :=
| OnOpenFires (h : Handle)
| OnCloseFires (h : Handle) (err : option Error)
| OnMessageFires (h : Handle) (msg : ListenResponse).

Definition fire (cb : Callback) : Eff.t World unit :=
  match cb with
  | OnOpenFires h => fire_onOpen h
  | OnCloseFires h err => fire_onClose h err
  | OnMessageFires h msg => fire_onMessage h msg
  end.

(** Where [main] stands: suspended in [await watchStream.open()], suspended
    in [await watchStream.close()] inside [finally] (with the exception of
    the [try] block, if any, still to be rethrown), or finished. *)
Inductive MainPc : Type :=
| AwaitingOpen (d : Async)
| AwaitingClose (d : Async) (thrown : option Error)
| Finished (result : Error + unit).

Record Main : Type := mkMain {
  world : World;
  console : list string;
  pc : MainPc
}.

(** [log(...args)]: one line on the console. *)
Definition log (line : string) (console : list string) : list string :=
  console ++ [line].

(** The end of the [finally] block, once [close()] has completed: the last
    line is logged and the exception of the [try] block, if any, goes on. *)
Definition main_finally_end (w : World) (console : list string)
  (thrown : option Error) : Main :=
  mkMain w (log "Watch stream closed" console)
    (Finished (match thrown with Some e => inl e | None => inr tt end)).

(** From the end of [await watchStream.open()] to the [await] in
    [finally]. *)
Definition main_try (faults : Faults) (w : World) (console : list string)
  : Main :=
  let console1 := log "Adding target to watch stream" console in
  let (w1, r) :=
    addTarget faults 1 "TestCollection" "TestKey" "TestValue" w in
  let thrown := match r with inl e => Some e | inr _ => None end in
  let console2 := log "Closing watch stream" console1 in
  match close faults w1 with
  | (w2, inl e) => mkMain w2 console2 (Finished (inl e))
  | (w2, inr a) => mkMain w2 console2 (AwaitingClose a thrown)
  end.

(** From the start of [main] to its first [await]. *)
Definition main_start (faults : Faults) (projectId host : string) : Main :=
  let console :=
    log ("Connecting to Firestore host " ++ host
           ++ " using project ID " ++ projectId)%string [] in
  match open faults (World_new projectId) with
  | (w, inl e) => mkMain w console (Finished (inl e))
  | (w, inr a) => mkMain w console (AwaitingOpen a)
  end.

(** [main] goes on if the promise it awaits is settled. *)
Definition main_resume (faults : Faults) (m : Main) : Main :=
  match pc m with
  | AwaitingOpen a =>
      match outcome (world m) a with
      | Pending => m
      | Rejected e => mkMain (world m) (console m) (Finished (inl e))
      | Resolved => main_try faults (world m) (console m)
      end
  | AwaitingClose a thrown =>
      match outcome (world m) a with
      | Pending => m
      | Rejected e => mkMain (world m) (console m) (Finished (inl e))
      | Resolved => main_finally_end (world m) (console m) thrown
      end
  | Finished _ => m
  end.

(** One callback of the transport, then [main] as far as it gets: it has
    two suspension points. *)
Definition main_step (faults : Faults) (m : Main) (cb : Callback) : Main :=
  let m' := mkMain (fst (fire cb (world m))) (console m) (pc m) in
  main_resume faults (main_resume faults m').

Definition main (faults : Faults) (projectId host : string)
  (callbacks : list Callback) : Main :=
  fold_left (main_step faults) callbacks
    (main_resume faults
       (main_resume faults (main_start faults projectId host))).

(** ** Vocabulary of the statements *)

(** The events that drive one [TargetState]. *)
Inductive TargetEvent : Type :=
| Added
| Removed
| Current
| Reset
| NoChange (resumeToken : option Token).

Definition deliver (ev : TargetEvent) : Eff.t TargetState unit :=
  match ev with
  | Added => onAdded
  | Removed => onRemoved
  | Current => onCurrent
  | Reset => onReset
  | NoChange resumeToken => onNoChange resumeToken
  end.

Definition deliver_all (evs : list TargetEvent) : Eff.t TargetState unit :=
  Eff.for_of evs deliver.

(** [n] rounds of [onRemoved(); onAdded()]. *)
Fixpoint cycles (n : nat) : Eff.t TargetState unit :=
  match n with
  | O => Eff.ret tt
  | S n' => onRemoved ;; onAdded ;; cycles n'
  end.

(** What can be told about a [TargetState] from outside: which calls throw.
    The fields are private and no method returns them; the two flags decide
    every guard. *)
Definition flags (s : TargetState) : bool * bool := (_added s, _current s).

(** The event a [targetChangeType] stands for, if it is one of the five. *)
Definition event_of (targetChange : TargetChange) : option TargetEvent :=
  match targetChangeType targetChange with
  | Some ty =>
      if (ty =? "ADD")%string then Some Added
      else if (ty =? "REMOVE")%string then Some Removed
      else if (ty =? "CURRENT")%string then Some Current
      else if (ty =? "RESET")%string then Some Reset
      else if (ty =? "NO_CHANGE")%string
           then Some (NoChange (resumeToken targetChange))
      else None
  | None => None
  end.

Definition recognized (ty : option string) : Prop :=
  ty = Some "ADD" \/ ty = Some "REMOVE" \/ ty = Some "CURRENT"
  \/ ty = Some "RESET" \/ ty = Some "NO_CHANGE".

Definition no_target_ids (targetChange : TargetChange) : Prop :=
  targetIds targetChange = None \/ targetIds targetChange = Some [].

(** The same change with its list of identifiers replaced by [ids]. *)
Definition naming (ids : list Z) (targetChange : TargetChange)
  : TargetChange :=
  mkTargetChange (Some ids) (targetChangeType targetChange)
    (resumeToken targetChange).

(** The registry after [ev] was delivered to each of its targets. *)
Definition deliver_to_all (ev : TargetEvent) (m : JsMap.t TargetState)
  : JsMap.t TargetState :=
  map (fun entry => (fst entry, fst (deliver ev (snd entry)))) m.

(** The [ListenRequest] that [addTarget] builds. *)
Definition addTarget_message (projectId : string) (targetId : Z)
  (collectionId keyFilter valueFilter : string) : ListenRequest :=
  mkListenRequest
    (mkAddTarget targetId
       (mkQueryTarget
          ("projects/" ++ projectId ++ "/databases/(default)/documents")%string
          (mkStructuredQuery [collectionId]
             (mkFieldFilter keyFilter "EQUAL" valueFilter)))).

(** A computation on the [WatchStream] that writes to the registry only, and
    there to the objects registered already. *)
Definition only_targets {A} (c : Eff.t WatchStream A) : Prop :=
  forall o,
  exists m,
    fst (c o) = set_targets m o /\ JsMap.keys m = JsMap.keys (_targets o).

(** What holds of the channel in every state a [WatchStream] can reach: the
    installed stream was obtained from the connection and is not released
    while the [WatchStream] is not closed; a stream not yet obtained was
    not released; no stream was released twice. *)
Record channel_invariant (w : World) : Prop := mkChannelInvariant {
  installed_known :
    forall h, _stream (this w) = Some h -> (h < List.length (streams w))%nat;
  installed_held :
    forall h, _stream (this w) = Some h -> _closed (this w) = false ->
              releases h (calls w) = O;
  unknown_unreleased :
    forall h, (List.length (streams w) <= h)%nat -> releases h (calls w) = O;
  released_once :
    forall h, (releases h (calls w) <= 1)%nat
}.

(** The two ways the arguments of the [BloomFilter] constructor can be
    wrong. *)
Definition bad_padding (bits : list Byte.byte) (padding : Z) : Prop :=
  (BloomFilter.size bits = 0 /\ padding <> 0)
  \/ (BloomFilter.size bits > 0 /\ (padding < 0 \/ 7 < padding)).

Definition bad_hashCount (bits : list Byte.byte) (hashCount : Z) : Prop :=
  hashCount < 0 \/ (BloomFilter.size bits > 0 /\ hashCount = 0).

(** A [TargetState] that is current is added. *)
Definition coherent (s : TargetState) : Prop :=
  _current s = true -> _added s = true.

(** A property of every object of the registry. *)
Definition all_targets (P : TargetState -> Prop) (o : WatchStream) : Prop :=
  Forall (fun entry => P (snd entry)) (_targets o).

(** A computation that keeps a property of the state, also when it
    throws. *)
Definition keeps {S A} (Q : S -> Prop) (c : Eff.t S A) : Prop :=
  forall s, Q s -> Q (fst (c s)).

(** Stream [h] is the installed one and the [WatchStream] is not closed. *)
Definition in_use (w : World) (h : Handle) : bool :=
  match _stream (this w) with
  | Some h' => Nat.eqb h' h && negb (_closed (this w))
  | None => false
  end.

(** The resume tokens that arrived in the messages of a history. *)
Fixpoint tokens_received (history : list (Faults * Step)) : list Token :=
  match history with
  | [] => []
  | (_, FireOnMessage _ msg) :: history' =>
      match targetChange msg with
      | Some tc =>
          match resumeToken tc with
          | Some t => t :: tokens_received history'
          | None => tokens_received history'
          end
      | None => tokens_received history'
      end
  | _ :: history' => tokens_received history'
  end.

(** The identifiers of the add-target messages in a log of calls. *)
Fixpoint sent_targets (cs : list TransportCall) : list Z :=
  match cs with
  | [] => []
  | StreamSend _ msg :: cs' => targetId (addTarget_ msg) :: sent_targets cs'
  | _ :: cs' => sent_targets cs'
  end.

(** The first line [main] logs. *)
Definition greeting (projectId host : string) : string :=
  ("Connecting to Firestore host " ++ host
     ++ " using project ID " ++ projectId)%string.

(** What holds of [main] wherever it stands. *)
Definition main_invariant (projectId host : string) (m : Main) : Prop :=
  (acquisitions (calls (world m)) <= 1)%nat
  /\ match pc m with
     | AwaitingOpen a =>
         _stream (this (world m)) = Some O
         /\ _closed (this (world m)) = false
         /\ _targets (this (world m)) = []
         /\ sends (calls (world m)) = O
         /\ releases O (calls (world m)) = O
         /\ console m = [greeting projectId host]
     | AwaitingClose a thrown =>
         _closed (this (world m)) = true
         /\ sends (calls (world m)) = 1%nat
         /\ releases O (calls (world m)) = 1%nat
         /\ console m = [greeting projectId host;
                         "Adding target to watch stream";
                         "Closing watch stream"]
         /\ (thrown = None ->
             JsMap.has (_targets (this (world m))) 1 = true)
     | Finished r =>
         (_closed (this (world m)) = false
          /\ sends (calls (world m)) = O
          /\ exists e, r = inl e)
         \/ (_closed (this (world m)) = true
             /\ sends (calls (world m)) = 1%nat
             /\ releases O (calls (world m)) = 1%nat
             /\ (r = inr tt ->
                 JsMap.has (_targets (this (world m))) 1 = true
                 /\ console m = [greeting projectId host;
                                 "Adding target to watch stream";
                                 "Closing watch stream";
                                 "Watch stream closed"]))
     end.





(** ** Properties of [TargetState] *)

Ltac ts_cases s :=
  destruct s as [[|] [|] ?]; cbv; try tauto; try congruence; auto.

Lemma onAdded_run (s : TargetState) :
  onAdded s =
    if _added s
    then (s, inl (TargetStateError OnAddedWhenAlreadyAdded))
    else (mkTargetState true false (_resumeToken s), inr tt).
Proof. ts_cases s. Qed.

Lemma onRemoved_run (s : TargetState) :
  onRemoved s =
    if _added s
    then (mkTargetState false false (_resumeToken s), inr tt)
    else (s, inl (TargetStateError OnRemovedWhenNotAdded)).
Proof. ts_cases s. Qed.

Lemma onCurrent_run (s : TargetState) :
  onCurrent s =
    if _added s
    then (mkTargetState true true (_resumeToken s), inr tt)
    else (s, inl (TargetStateError OnCurrentWhenNotAdded)).
Proof. ts_cases s. Qed.

Lemma onReset_run (s : TargetState) :
  onReset s =
    if _added s
    then (mkTargetState true false (_resumeToken s), inr tt)
    else (s, inl (TargetStateError OnResetWhenNotAdded)).
Proof. ts_cases s. Qed.

Lemma onNoChange_run (s : TargetState) (token : option Token) :
  onNoChange token s =
    if _added s then
      if _current s then
        (match token with
         | Some _ => mkTargetState true true token
         | None => s
         end, inr tt)
      else (s, inl (TargetStateError OnNoChangeWhenNotCurrent))
    else (s, inl (TargetStateError OnNoChangeWhenNotAdded)).
Proof. destruct token; ts_cases s. Qed.

(** C3: every transition throws exactly when its guard fails, leaving the
    object as it was, and otherwise has the effect of the table of section
    4.2: [onAdded] needs [added] false and sets [added=true; current=false];
    [onRemoved], [onCurrent], [onReset] need [added] and set
    [added=false; current=false], [current=true], [current=false];
    [onNoChange(token)] needs [added] and [current] and stores a token that is
    present. *)
Theorem TargetState_transitions (s : TargetState) (token : option Token) :
  (threw (onAdded s) = _added s
   /\ (_added s = false ->
       onAdded s = (mkTargetState true false (_resumeToken s), inr tt)))
  /\ (threw (onRemoved s) = negb (_added s)
      /\ (_added s = true ->
          onRemoved s = (mkTargetState false false (_resumeToken s), inr tt)))
  /\ (threw (onCurrent s) = negb (_added s)
      /\ (_added s = true ->
          onCurrent s = (mkTargetState true true (_resumeToken s), inr tt)))
  /\ (threw (onReset s) = negb (_added s)
      /\ (_added s = true ->
          onReset s = (mkTargetState true false (_resumeToken s), inr tt)))
  /\ (threw (onNoChange token s) = negb (_added s && _current s)
      /\ (_added s = true -> _current s = true ->
          onNoChange token s =
            (match token with
             | Some t => mkTargetState true true (Some t)
             | None => s
             end, inr tt)))
  /\ (forall ev, threw (deliver ev s) = true -> fst (deliver ev s) = s).
Proof.
  rewrite onAdded_run, onRemoved_run, onCurrent_run, onReset_run,
    onNoChange_run.
  repeat split; try (destruct s as [[|] [|] r]; cbn; congruence).
  - destruct token; destruct s as [[|] [|] r]; cbn; congruence.
  - intros [| | | |tok]; cbn [deliver];
      rewrite ?onAdded_run, ?onRemoved_run, ?onCurrent_run, ?onReset_run,
        ?onNoChange_run;
      destruct s as [[|] [|] r]; cbn; try congruence;
      destruct tok; cbn; congruence.
Qed.

Lemma TargetState_transitions_witness :
  let s := mkTargetState true true None in
  let token := Some (TokenString "t1") in
  threw (onAdded s) = true
  /\ onRemoved s = (mkTargetState false false None, inr tt)
  /\ onNoChange token s = (mkTargetState true true token, inr tt).
Proof.
  pose proof (TargetState_transitions (mkTargetState true true None)
                (Some (TokenString "t1"))) as H.
  cbn [_added _current _resumeToken] in H.
  destruct H as ((Ha & _) & (_ & Hr) & _ & _ & (_ & Hn) & _).
  split; [exact Ha|].
  split; [apply Hr; reflexivity|].
  apply Hn; reflexivity.
Defined.

Lemma deliver_run (ev : TargetEvent) (s : TargetState) :
  deliver ev s =
    match ev with
    | Added =>
        if _added s
        then (s, inl (TargetStateError OnAddedWhenAlreadyAdded))
        else (mkTargetState true false (_resumeToken s), inr tt)
    | Removed =>
        if _added s
        then (mkTargetState false false (_resumeToken s), inr tt)
        else (s, inl (TargetStateError OnRemovedWhenNotAdded))
    | Current =>
        if _added s
        then (mkTargetState true true (_resumeToken s), inr tt)
        else (s, inl (TargetStateError OnCurrentWhenNotAdded))
    | Reset =>
        if _added s
        then (mkTargetState true false (_resumeToken s), inr tt)
        else (s, inl (TargetStateError OnResetWhenNotAdded))
    | NoChange token =>
        if _added s then
          if _current s then
            (match token with
             | Some _ => mkTargetState true true token
             | None => s
             end, inr tt)
          else (s, inl (TargetStateError OnNoChangeWhenNotCurrent))
        else (s, inl (TargetStateError OnNoChangeWhenNotAdded))
    end.
Proof.
  destruct ev; cbn [deliver];
    auto using onAdded_run, onRemoved_run, onCurrent_run, onReset_run,
      onNoChange_run.
Qed.

(** The guards read the two flags only: objects that agree on them answer
    every event alike and still agree afterwards. *)
Lemma deliver_flags (ev : TargetEvent) (s1 s2 : TargetState) :
  flags s1 = flags s2 ->
  snd (deliver ev s1) = snd (deliver ev s2)
  /\ flags (fst (deliver ev s1)) = flags (fst (deliver ev s2)).
Proof.
  unfold flags. intros H. rewrite !deliver_run.
  destruct s1 as [a1 c1 r1], s2 as [a2 c2 r2]. cbn in H.
  inversion H; subst a2 c2.
  destruct ev as [| | | |[t|]]; destruct a1, c1; cbn; auto.
Qed.

Lemma deliver_all_flags (evs : list TargetEvent) :
  forall s1 s2 : TargetState,
    flags s1 = flags s2 ->
    snd (deliver_all evs s1) = snd (deliver_all evs s2)
    /\ flags (fst (deliver_all evs s1)) = flags (fst (deliver_all evs s2)).
Proof.
  unfold deliver_all.
  induction evs as [|ev evs IH]; intros s1 s2 H; cbn [Eff.for_of].
  - cbn. auto.
  - unfold Eff.bind.
    destruct (deliver_flags ev s1 s2 H) as [Hr Hf].
    destruct (deliver ev s1) as [s1' r1], (deliver ev s2) as [s2' r2].
    cbn [fst snd] in Hr, Hf. subst r2.
    destruct r1 as [e|[]]; cbn [fst snd]; auto.
Qed.

Lemma cycles_succ (n : nat) (s : TargetState) :
  cycles (S n) s =
    if _added s
    then cycles n (mkTargetState true false (_resumeToken s))
    else (s, inl (TargetStateError OnRemovedWhenNotAdded)).
Proof.
  cbn [cycles]. unfold Eff.bind at 1. rewrite onRemoved_run.
  destruct (_added s); [|reflexivity].
  unfold Eff.bind at 1. rewrite onAdded_run. reflexivity.
Qed.

Lemma cycles_added (n : nat) :
  forall s : TargetState,
    _added s = true ->
    snd (cycles n s) = inr tt
    /\ _added (fst (cycles n s)) = true
    /\ _resumeToken (fst (cycles n s)) = _resumeToken s.
Proof.
  induction n as [|n IH]; intros s H.
  - cbn. auto.
  - rewrite cycles_succ, H.
    exact (IH (mkTargetState true false (_resumeToken s)) eq_refl).
Qed.

(** C9: [onRemoved] takes an added [TargetState] back to a state with the flags
    of a new one, which no sequence of events tells from a new object;
    [onAdded] then succeeds, and any number of remove/add rounds run
    through on the same object. *)
Theorem TargetState_cycle_reusable (s : TargetState) (H : _added s = true) :
  snd (onRemoved s) = inr tt
  /\ flags (fst (onRemoved s)) = flags TargetState_new
  /\ (forall evs,
        snd (deliver_all evs (fst (onRemoved s)))
        = snd (deliver_all evs TargetState_new)
        /\ flags (fst (deliver_all evs (fst (onRemoved s))))
           = flags (fst (deliver_all evs TargetState_new)))
  /\ snd (onAdded (fst (onRemoved s))) = inr tt
  /\ (forall n,
        snd (cycles n s) = inr tt /\ _added (fst (cycles n s)) = true).
Proof.
  assert (Hf : flags (fst (onRemoved s)) = flags TargetState_new)
    by (rewrite onRemoved_run, H; reflexivity).
  split; [rewrite onRemoved_run, H; reflexivity|].
  split; [exact Hf|].
  split; [intros evs; apply deliver_all_flags, Hf|].
  split; [rewrite onRemoved_run, H, onAdded_run; reflexivity|].
  intros n. destruct (cycles_added n s H) as (? & ? & _). auto.
Qed.

Lemma TargetState_cycle_reusable_witness :
  let s := mkTargetState true true (Some (TokenString "t1")) in
  snd (onAdded (fst (onRemoved s))) = inr tt
  /\ snd (cycles 3 s) = inr tt.
Proof.
  pose proof (TargetState_cycle_reusable
                (mkTargetState true true (Some (TokenString "t1")))
                eq_refl) as (_ & _ & _ & Ha & Hn).
  split; [exact Ha|]. exact (proj1 (Hn 3%nat)).
Defined.

Lemma cycles_token (n : nat) :
  forall s : TargetState,
    _resumeToken (fst (cycles n s)) = _resumeToken s.
Proof.
  induction n as [|n IH]; intros s.
  - reflexivity.
  - rewrite cycles_succ.
    destruct (_added s); [|reflexivity].
    rewrite IH. reflexivity.
Qed.

(** C10: [resumeToken] changes only in an [onNoChange] that succeeds and
    carries a token.  [onAdded], [onRemoved], [onCurrent], [onReset],
    [onNoChange(null)] and every call that throws leave it as it was, so it
    is still there after any number of remove/add rounds. *)
Theorem resumeToken_frame (s : TargetState) :
  (forall ev,
      _resumeToken (fst (deliver ev s)) <> _resumeToken s ->
      exists t, ev = NoChange (Some t) /\ snd (deliver ev s) = inr tt)
  /\ _resumeToken (fst (onAdded s)) = _resumeToken s
  /\ _resumeToken (fst (onRemoved s)) = _resumeToken s
  /\ _resumeToken (fst (onCurrent s)) = _resumeToken s
  /\ _resumeToken (fst (onReset s)) = _resumeToken s
  /\ _resumeToken (fst (onNoChange None s)) = _resumeToken s
  /\ (forall ev,
        threw (deliver ev s) = true ->
        _resumeToken (fst (deliver ev s)) = _resumeToken s)
  /\ (forall t,
        threw (onNoChange (Some t) s) = false ->
        _resumeToken (fst (onNoChange (Some t) s)) = Some t)
  /\ (forall n, _resumeToken (fst (cycles n s)) = _resumeToken s).
Proof.
  split.
  { intros ev Hne. rewrite deliver_run in *.
    destruct ev as [| | | |[t|]];
      destruct (_added s), (_current s); cbn in *;
      try congruence; eauto. }
  rewrite onAdded_run, onRemoved_run, onCurrent_run, onReset_run,
    !onNoChange_run.
  repeat split; try (destruct (_added s), (_current s); reflexivity).
  - intros ev. rewrite deliver_run.
    destruct ev as [| | | |[t|]];
      destruct (_added s), (_current s); cbn; congruence.
  - intros t. rewrite onNoChange_run.
    destruct (_added s), (_current s); cbn; congruence.
  - intros n. apply cycles_token.
Qed.

Lemma resumeToken_frame_witness :
  let s := mkTargetState true true (Some (TokenString "t1")) in
  _resumeToken (fst (cycles 2 s)) = Some (TokenString "t1")
  /\ _resumeToken (fst (onNoChange (Some (TokenString "t2")) s))
     = Some (TokenString "t2").
Proof.
  pose proof (resumeToken_frame
                (mkTargetState true true (Some (TokenString "t1"))))
    as (_ & _ & _ & _ & _ & _ & _ & Ht & Hn).
  split; [exact (Hn 2%nat)|].
  apply Ht. reflexivity.
Defined.

(** ** The registry *)

Section Registry.

Context {V : Type}.
Implicit Types (m : JsMap.t V) (k : Z) (v : V).

Lemma get_none_iff m k : JsMap.get m k = None <-> ~ In k (JsMap.keys m).
Proof.
  induction m as [|[k' v'] m IH]; cbn.
  - tauto.
  - destruct (Z.eqb_spec k' k) as [->|Hne].
    + split; [discriminate | tauto].
    + rewrite IH. tauto.
Qed.

Lemma get_in_keys m k v : JsMap.get m k = Some v -> In k (JsMap.keys m).
Proof.
  intros H. destruct (in_dec Z.eq_dec k (JsMap.keys m)) as [Hi|Hn]; auto.
  apply get_none_iff in Hn. congruence.
Qed.

Lemma get_app_fresh (pre suf : JsMap.t V) k :
  ~ In k (JsMap.keys pre) ->
  JsMap.get (pre ++ suf) k = JsMap.get suf k.
Proof.
  induction pre as [|[k' v'] pre IH]; cbn; intros Hn; auto.
  destruct (Z.eqb_spec k' k) as [->|Hne]; [tauto|].
  apply IH. tauto.
Qed.

Lemma set_app_fresh (pre suf : JsMap.t V) k v :
  ~ In k (JsMap.keys pre) ->
  JsMap.set (pre ++ suf) k v = pre ++ JsMap.set suf k v.
Proof.
  induction pre as [|[k' v'] pre IH]; cbn; intros Hn; auto.
  destruct (Z.eqb_spec k' k) as [->|Hne]; [tauto|].
  rewrite IH; tauto.
Qed.

Lemma keys_set_absent m k v :
  JsMap.get m k = None ->
  JsMap.set m k v = m ++ [(k, v)].
Proof.
  induction m as [|[k' v'] m IH]; cbn; auto.
  destruct (Z.eqb_spec k' k) as [->|Hne]; [discriminate|].
  intros H. rewrite IH; auto.
Qed.

Lemma keys_set_present m k v :
  JsMap.get m k <> None ->
  JsMap.keys (JsMap.set m k v) = JsMap.keys m.
Proof.
  unfold JsMap.keys.
  induction m as [|[k' v'] m IH]; cbn; [congruence|].
  destruct (Z.eqb_spec k' k) as [->|Hne]; cbn; auto.
  intros H. rewrite IH; auto.
Qed.

Lemma get_set_same m k v : JsMap.get (JsMap.set m k v) k = Some v.
Proof.
  induction m as [|[k' v'] m IH]; cbn.
  - rewrite Z.eqb_refl. reflexivity.
  - destruct (Z.eqb_spec k' k) as [->|Hne]; cbn.
    + rewrite Z.eqb_refl. reflexivity.
    + destruct (Z.eqb_spec k' k); [contradiction|]. exact IH.
Qed.

Lemma get_set_other m k k' v :
  k <> k' -> JsMap.get (JsMap.set m k v) k' = JsMap.get m k'.
Proof.
  intros Hne. induction m as [|[k0 v0] m IH]; cbn.
  - destruct (Z.eqb_spec k k'); [contradiction | reflexivity].
  - destruct (Z.eqb_spec k0 k) as [->|Hne0]; cbn.
    + destruct (Z.eqb_spec k k'); [contradiction | reflexivity].
    + rewrite IH. reflexivity.
Qed.

(** [set] keeps the keys of a [Map] distinct. *)
Lemma wf_set m k v : JsMap.wf m -> JsMap.wf (JsMap.set m k v).
Proof.
  unfold JsMap.wf. intros H.
  destruct (JsMap.get m k) eqn:Hg.
  - rewrite keys_set_present; congruence.
  - rewrite keys_set_absent by exact Hg.
    unfold JsMap.keys. rewrite map_app. cbn.
    apply get_none_iff in Hg.
    apply NoDup_rev in H. rewrite <- (rev_involutive (map fst m ++ [k])).
    apply NoDup_rev. rewrite rev_app_distr. cbn.
    constructor; [rewrite <- in_rev; exact Hg | exact H].
Qed.

End Registry.

(** ** Dispatch of [targetChange] *)

Lemma for_of_ext {S X} (f g : X -> Eff.t S unit) (xs : list X) :
  (forall x s, f x s = g x s) ->
  forall s, Eff.for_of xs f s = Eff.for_of xs g s.
Proof.
  intros Hfg. induction xs as [|x xs IH]; intros s; cbn [Eff.for_of].
  - reflexivity.
  - unfold Eff.bind. rewrite Hfg.
    destruct (g x s) as [s' [e|[]]]; auto.
Qed.

Lemma targetState_for_run (targetId : Z) (o : WatchStream) :
  targetState_for targetId o =
    match JsMap.get (_targets o) targetId with
    | None => (o, inl (WatchError (UnknownTargetId targetId)))
    | Some _ => (o, inr targetId)
    end.
Proof.
  unfold targetState_for, Eff.bind, Eff.get.
  destruct (JsMap.get (_targets o) targetId); reflexivity.
Qed.

Lemma resolve_known (o : WatchStream) (ids : list Z) :
  (forall id, In id ids -> JsMap.get (_targets o) id <> None) ->
  Eff.map_from ids targetState_for o = (o, inr ids).
Proof.
  induction ids as [|id ids IH]; intros H; cbn [Eff.map_from].
  - reflexivity.
  - unfold Eff.bind at 1. rewrite targetState_for_run.
    destruct (JsMap.get (_targets o) id) eqn:Hg.
    + unfold Eff.bind. rewrite IH by (intros; apply H; right; assumption).
      reflexivity.
    + exfalso. apply (H id); [left; reflexivity | exact Hg].
Qed.

Lemma resolve_unknown (o : WatchStream) (ids : list Z) :
  (exists id, In id ids /\ JsMap.get (_targets o) id = None) ->
  exists id,
    In id ids /\ JsMap.get (_targets o) id = None
    /\ Eff.map_from ids targetState_for o
       = (o, inl (WatchError (UnknownTargetId id))).
Proof.
  induction ids as [|id ids IH]; intros (bad & Hin & Hbad).
  - destruct Hin.
  - cbn [Eff.map_from]. unfold Eff.bind at 1. rewrite targetState_for_run.
    destruct (JsMap.get (_targets o) id) eqn:Hg.
    + destruct Hin as [->|Hin]; [congruence|].
      destruct IH as (id' & Hin' & Hnone & Hrun); [eauto|].
      exists id'. repeat split; [right; exact Hin' | exact Hnone|].
      unfold Eff.bind. rewrite Hrun. reflexivity.
    + exists id. repeat split; [left; reflexivity | exact Hg].
Qed.

Lemma known_or_unknown (o : WatchStream) (ids : list Z) :
  (forall id, In id ids -> JsMap.get (_targets o) id <> None)
  \/ (exists id, In id ids /\ JsMap.get (_targets o) id = None).
Proof.
  induction ids as [|id ids [IH|(bad & Hin & Hbad)]].
  - left. intros id [].
  - destruct (JsMap.get (_targets o) id) eqn:Hg.
    + left. intros id' [<-|Hin]; [congruence | auto].
    + right. exists id. split; [left; reflexivity | exact Hg].
  - right. exists bad. split; [right; exact Hin | exact Hbad].
Qed.

Lemma resolution_run (tc : TargetChange) (o : WatchStream) :
  _targetStatesForTargetChange tc o =
    match
      Eff.map_from (match targetIds tc with Some ids => ids | None => [] end)
        targetState_for o
    with
    | (o', inl e) => (o', inl e)
    | (o', inr l) =>
        if (0 <? List.length l)%nat then (o', inr l)
        else (o', inr (JsMap.keys (_targets o')))
    end.
Proof.
  unfold _targetStatesForTargetChange, Eff.bind at 1.
  destruct (Eff.map_from _ targetState_for o) as [o' [e|l]]; [reflexivity|].
  destruct (0 <? List.length l)%nat; reflexivity.
Qed.

Lemma resolution_broadcast (tc : TargetChange) (o : WatchStream) :
  no_target_ids tc ->
  _targetStatesForTargetChange tc o = (o, inr (JsMap.keys (_targets o))).
Proof.
  intros [H|H]; rewrite resolution_run, H; reflexivity.
Qed.

Lemma resolution_named (tc : TargetChange) (o : WatchStream) (ids : list Z) :
  targetIds tc = Some ids ->
  (forall id, In id ids -> JsMap.get (_targets o) id <> None) ->
  _targetStatesForTargetChange tc o
  = (o, inr (match ids with [] => JsMap.keys (_targets o) | _ => ids end)).
Proof.
  intros Hids Hknown. rewrite resolution_run, Hids, resolve_known by exact Hknown.
  destruct ids; reflexivity.
Qed.

Lemma switch_run (tc : TargetChange) (ref : Z) :
  switch_targetChangeType tc ref =
    match event_of tc with
    | Some ev => invoke ref (deliver ev)
    | None =>
        Eff.throw (WatchError (UnknownTargetChangeType (targetChangeType tc)))
    end.
Proof.
  unfold switch_targetChangeType, event_of.
  destruct (targetChangeType tc) as [ty|]; [|reflexivity].
  repeat match goal with
         | |- context [String.eqb ty ?c] => destruct (String.eqb ty c)
         end; reflexivity.
Qed.

Lemma event_of_none (tc : TargetChange) :
  event_of tc = None <-> ~ recognized (targetChangeType tc).
Proof.
  unfold event_of, recognized.
  destruct (targetChangeType tc) as [ty|].
  - destruct (String.eqb_spec ty "ADD") as [->|H1];
      [split; [discriminate | tauto]|].
    destruct (String.eqb_spec ty "REMOVE") as [->|H2];
      [split; [discriminate | tauto]|].
    destruct (String.eqb_spec ty "CURRENT") as [->|H3];
      [split; [discriminate | tauto]|].
    destruct (String.eqb_spec ty "RESET") as [->|H4];
      [split; [discriminate | tauto]|].
    destruct (String.eqb_spec ty "NO_CHANGE") as [->|H5];
      [split; [discriminate | tauto]|].
    split; [|reflexivity].
    intros _ [H|[H|[H|[H|H]]]]; congruence.
  - split; [|reflexivity].
    intros _ [H|[H|[H|[H|H]]]]; discriminate.
Qed.

Lemma set_targets_twice (m m' : JsMap.t TargetState) (o : WatchStream) :
  set_targets m (set_targets m' o) = set_targets m o.
Proof. reflexivity. Qed.

Lemma set_targets_same (o : WatchStream) : set_targets (_targets o) o = o.
Proof. destruct o; reflexivity. Qed.

(** The loop over the references of a part [suf] of the registry, when every
    object accepts the event. *)
Lemma loop_over_registry (ev : TargetEvent) :
  forall (suf pre : JsMap.t TargetState) (o : WatchStream),
    _targets o = pre ++ suf ->
    NoDup (JsMap.keys (pre ++ suf)) ->
    (forall k s, In (k, s) suf -> snd (deliver ev s) = inr tt) ->
    Eff.for_of (JsMap.keys suf) (fun ref => invoke ref (deliver ev)) o
    = (set_targets (pre ++ deliver_to_all ev suf) o, inr tt).
Proof.
  induction suf as [|[k s] suf IH]; intros pre o Ht Hnd Hok.
  - cbn. rewrite app_nil_r in *. rewrite <- Ht, set_targets_same. reflexivity.
  - cbn [JsMap.keys map fst Eff.for_of]. unfold Eff.bind, invoke.
    assert (Hfresh : ~ In k (JsMap.keys pre)).
    { unfold JsMap.keys in *. rewrite map_app in Hnd. cbn in Hnd.
      apply NoDup_remove_2 in Hnd. intros Hin. apply Hnd.
      apply in_or_app. left. exact Hin. }
    rewrite Ht, get_app_fresh by exact Hfresh. cbn [JsMap.get].
    rewrite Z.eqb_refl.
    pose proof (Hok k s (or_introl eq_refl)) as Hk.
    destruct (deliver ev s) as [s' r] eqn:Hd. cbn [snd] in Hk. subst r.
    rewrite set_app_fresh by exact Hfresh. cbn [JsMap.set].
    rewrite Z.eqb_refl.
    change (map fst suf) with (JsMap.keys suf).
    rewrite (IH (pre ++ [(k, s')])).
    + rewrite set_targets_twice, <- app_assoc. cbn [deliver_to_all map app fst snd].
      rewrite Hd. reflexivity.
    + cbn. rewrite <- app_assoc. reflexivity.
    + unfold JsMap.keys in *. rewrite <- app_assoc, map_app in *. exact Hnd.
    + intros k0 s0 Hin. apply (Hok k0 s0). right. exact Hin.
Qed.

(** Conversely the loop ends without a throw only if every object accepted
    the event. *)
Lemma loop_success (ev : TargetEvent) :
  forall (suf pre : JsMap.t TargetState) (o : WatchStream),
    _targets o = pre ++ suf ->
    NoDup (JsMap.keys (pre ++ suf)) ->
    snd (Eff.for_of (JsMap.keys suf) (fun ref => invoke ref (deliver ev)) o)
    = inr tt ->
    forall k s, In (k, s) suf -> snd (deliver ev s) = inr tt.
Proof.
  induction suf as [|[k s] suf IH]; intros pre o Ht Hnd Hrun k0 s0 Hin.
  - destruct Hin.
  - cbn [JsMap.keys map fst Eff.for_of] in Hrun.
    unfold Eff.bind, invoke in Hrun.
    assert (Hfresh : ~ In k (JsMap.keys pre)).
    { unfold JsMap.keys in *. rewrite map_app in Hnd. cbn in Hnd.
      apply NoDup_remove_2 in Hnd. intros Hin'. apply Hnd.
      apply in_or_app. left. exact Hin'. }
    rewrite Ht, get_app_fresh in Hrun by exact Hfresh.
    cbn [JsMap.get] in Hrun. rewrite Z.eqb_refl in Hrun.
    destruct (deliver ev s) as [s' [e|[]]] eqn:Hd;
      [cbn in Hrun; discriminate|].
    destruct Hin as [[= <- <-]|Hin]; [rewrite Hd; reflexivity|].
    rewrite set_app_fresh in Hrun by exact Hfresh.
    cbn [JsMap.set] in Hrun. rewrite Z.eqb_refl in Hrun.
    change (map fst suf) with (JsMap.keys suf) in Hrun.
    apply (IH (pre ++ [(k, s')])
             (set_targets (pre ++ (k, s') :: suf) o)) with (k := k0);
      [| |exact Hrun|exact Hin].
    + cbn. rewrite <- app_assoc. reflexivity.
    + unfold JsMap.keys in *. rewrite <- app_assoc, map_app in *. exact Hnd.
Qed.

Lemma keys_known (o : WatchStream) (id : Z) :
  In id (JsMap.keys (_targets o)) -> JsMap.get (_targets o) id <> None.
Proof. intros Hin Hg. apply get_none_iff in Hg. contradiction. Qed.

Lemma onTargetChange_run (tc : TargetChange) (o : WatchStream) :
  _onTargetChange tc o =
    match _targetStatesForTargetChange tc o with
    | (o', inl e) => (o', inl e)
    | (o', inr refs) => Eff.for_of refs (switch_targetChangeType tc) o'
    end.
Proof.
  unfold _onTargetChange, Eff.bind.
  destruct (_targetStatesForTargetChange tc o) as [o' [e|refs]]; reflexivity.
Qed.

Lemma switch_naming (ids : list Z) (tc : TargetChange) (ref : Z) :
  switch_targetChangeType (naming ids tc) ref = switch_targetChangeType tc ref.
Proof. reflexivity. Qed.

(** When the resolved list is not empty, an unrecognized change type throws
    at the first iteration, before any object is touched. *)
Lemma unrecognized_type_throws (o : WatchStream) (tc : TargetChange) :
  ~ recognized (targetChangeType tc) ->
  (exists ids, targetIds tc = Some ids /\ ids <> [])
  \/ _targets o <> [] ->
  exists e, _onTargetChange tc o = (o, inl (WatchError e)).
Proof.
  intros Hty Hsome. apply event_of_none in Hty.
  assert (Hloop : forall refs, refs <> [] ->
            Eff.for_of refs (switch_targetChangeType tc) o
            = (o, inl (WatchError
                         (UnknownTargetChangeType (targetChangeType tc))))).
  { intros [|r refs] Hne; [contradiction|].
    cbn [Eff.for_of]. unfold Eff.bind. rewrite switch_run, Hty.
    reflexivity. }
  assert (Hkeys : _targets o <> [] -> JsMap.keys (_targets o) <> []).
  { destruct (_targets o); [contradiction | discriminate]. }
  rewrite onTargetChange_run.
  destruct (targetIds tc) as [ids|] eqn:Hids.
  - destruct (known_or_unknown o ids) as [Hknown|Hbad].
    + rewrite (resolution_named tc o ids Hids Hknown).
      eexists. apply Hloop.
      destruct ids as [|i ids]; [|discriminate].
      destruct Hsome as [(ids' & Heq & Hne)|Hreg]; [congruence | auto].
    + destruct (resolve_unknown o ids Hbad) as (id & _ & _ & Hrun).
      rewrite resolution_run, Hids, Hrun. eauto.
  - rewrite (resolution_broadcast tc o (or_introl Hids)).
    eexists. apply Hloop.
    destruct Hsome as [(ids' & Heq & _)|Hreg]; [discriminate | auto].
Qed.

(** C4, at the inputs where it fails: with no target registered, a
    [targetChange] that lists no identifier and carries an unrecognized
    change type, or none at all, runs the loop zero times; the [default]
    branch is never reached and the message is accepted. *)
Theorem unrecognized_type_accepted_without_targets :
  let bogus := mkTargetChange None (Some "BOGUS") None in
  let untyped := mkTargetChange (Some []) None None in
  let o := WatchStream_new "p" in
  ~ recognized (targetChangeType bogus)
  /\ ~ recognized (targetChangeType untyped)
  /\ _onTargetChange bogus o = (o, inr tt)
  /\ _onTargetChange untyped o = (o, inr tt)
  /\ _onMessageReceived (mkListenResponse (Some bogus) None None None None) o
     = (o, inr tt)
  /\ _onMessageReceived (mkListenResponse (Some untyped) None None None None) o
     = (o, inr tt).
Proof.
  cbn zeta.
  split; [intros [H|[H|[H|[H|H]]]]; discriminate|].
  split; [intros [H|[H|[H|[H|H]]]]; discriminate|].
  repeat split.
Qed.

(** ** [addTarget] *)

Ltac run_eff :=
  unfold transport, stream_send, stream_close, stream_onOpen, stream_onClose,
    stream_onMessage, openStream, update_stream, on_this, Eff.zoom,
    Eff.try_catch, Eff.bind, Eff.get, Eff.modify, Eff.throw, Eff.ret;
  cbn [this streams calls fst snd log_call set_this set_streams].

Lemma addTarget_run (faults : Faults) (w : World) (targetId : Z)
  (collectionId keyFilter valueFilter : string) :
  addTarget faults targetId collectionId keyFilter valueFilter w =
    match _stream (this w) with
    | None => (w, inl (WatchError OpenMustBeCalledBeforeAddTarget))
    | Some h =>
        if _closed (this w) then
          (w, inl (WatchError AddTargetMayNotBeCalledAfterClose))
        else if JsMap.has (_targets (this w)) targetId then
          (w, inl (WatchError (TargetIdIsAlreadyUsed targetId)))
        else
          let msg :=
            addTarget_message (_projectId (this w)) targetId collectionId
              keyFilter valueFilter in
          match faults (StreamSend h msg) with
          | Some e => (log_call (StreamSend h msg) w, inl e)
          | None =>
              (set_this
                 (set_targets
                    (JsMap.set (_targets (this w)) targetId TargetState_new)
                    (this w))
                 (log_call (StreamSend h msg) w), inr tt)
          end
    end.
Proof.
  unfold addTarget, addTarget_message. run_eff.
  destruct (_stream (this w)) as [h|]; [|reflexivity].
  destruct (_closed (this w)); [reflexivity|].
  destruct (JsMap.has (_targets (this w)) targetId); [reflexivity|].
  run_eff. cbv zeta.
  destruct (faults _); reflexivity.
Qed.

(** C8: [addTarget] throws, and changes nothing, when no stream is installed,
    when the [WatchStream] is closed, and when the identifier is registered
    already: no message goes out and the registry is as before.  Otherwise
    one add-target message is sent on the installed stream; if the send
    returns, a new [TargetState] (not yet added, not current) is registered
    under the identifier at once, no callback of the transport being
    involved; if the send throws, nothing is registered. *)
Theorem addTarget_contract (faults : Faults) (w : World) (targetId : Z)
  (collectionId keyFilter valueFilter : string) :
  let call := addTarget faults targetId collectionId keyFilter valueFilter in
  (_stream (this w) = None ->
   call w = (w, inl (WatchError OpenMustBeCalledBeforeAddTarget)))
  /\ (_closed (this w) = true ->
      exists e, call w = (w, inl (WatchError e)))
  /\ (forall h,
        _stream (this w) = Some h -> _closed (this w) = false ->
        JsMap.has (_targets (this w)) targetId = true ->
        call w = (w, inl (WatchError (TargetIdIsAlreadyUsed targetId))))
  /\ (forall h,
        _stream (this w) = Some h -> _closed (this w) = false ->
        JsMap.has (_targets (this w)) targetId = false ->
        let msg :=
          addTarget_message (_projectId (this w)) targetId collectionId
            keyFilter valueFilter in
        calls (fst (call w)) = calls w ++ [StreamSend h msg]
        /\ streams (fst (call w)) = streams w
        /\ (forall e,
              faults (StreamSend h msg) = Some e ->
              snd (call w) = inl e /\ this (fst (call w)) = this w)
        /\ (faults (StreamSend h msg) = None ->
            snd (call w) = inr tt
            /\ this (fst (call w))
               = set_targets
                   (_targets (this w) ++ [(targetId, TargetState_new)])
                   (this w)
            /\ JsMap.get (_targets (this (fst (call w)))) targetId
               = Some TargetState_new)).
Proof.
  cbv zeta. rewrite addTarget_run. split; [|split; [|split]].
  - intros ->. reflexivity.
  - intros Hc. destruct (_stream (this w)); rewrite ?Hc; eauto.
  - intros h -> -> ->. reflexivity.
  - intros h Hs Hc Hfresh. rewrite Hs, Hc, Hfresh. cbv zeta.
    destruct (faults _) as [e|] eqn:Hf; cbn [fst snd];
      (split; [reflexivity|]); (split; [reflexivity|]); split;
      try discriminate; try (intros e' [= <-]; auto).
    intros _. split; [reflexivity|].
    cbn [this set_this log_call _targets set_targets].
    rewrite keys_set_absent.
    + split; [reflexivity|].
      rewrite <- (keys_set_absent (_targets (this w)) targetId TargetState_new).
      * apply get_set_same.
      * unfold JsMap.has in Hfresh.
        destruct (JsMap.get _ _); [discriminate | reflexivity].
    + unfold JsMap.has in Hfresh.
      destruct (JsMap.get _ _); [discriminate | reflexivity].
Qed.

Lemma addTarget_contract_witness :
  let w1 := fst (open no_faults (World_new "p")) in
  let w2 := fst (addTarget no_faults 1 "c" "k" "v" w1) in
  snd (addTarget no_faults 1 "c" "k" "v" w1) = inr tt
  /\ addTarget no_faults 1 "c" "k" "v" w2
     = (w2, inl (WatchError (TargetIdIsAlreadyUsed 1))).
Proof.
  intros w1 w2. split.
  - destruct (addTarget_contract no_faults w1 1 "c" "k" "v")
      as (_ & _ & _ & Hsend).
    destruct (Hsend O eq_refl eq_refl eq_refl) as (_ & _ & _ & Hok).
    exact (proj1 (Hok eq_refl)).
  - destruct (addTarget_contract no_faults w2 1 "c" "k" "v")
      as (_ & _ & Hdup & _).
    exact (Hdup O eq_refl eq_refl eq_refl).
Defined.

(** ** [open] and [close] *)

Lemma update_nth_length {A} (n : nat) (f : A -> A) (l : list A) :
  List.length (update_nth n f l) = List.length l.
Proof.
  revert n. induction l as [|x l IH]; intros [|n]; cbn; auto.
Qed.

Lemma releases_app (h : Handle) (cs cs' : list TransportCall) :
  releases h (cs ++ cs') = (releases h cs + releases h cs')%nat.
Proof.
  induction cs as [|c cs IH]; cbn; auto.
  destruct c; auto. destruct (Nat.eqb h0 h); cbn; auto.
Qed.

Lemma open_guarded (faults : Faults) (w : World) :
  _stream (this w) <> None \/ _closed (this w) = true ->
  exists e, open faults w = (w, inl (WatchError e)).
Proof.
  unfold open. run_eff.
  destruct (_stream (this w)) as [h|]; cbn [is_some]; [eauto|].
  intros [H|Hc]; [congruence | rewrite Hc; eauto].
Qed.

Lemma open_passed (faults : Faults) (w w' : World) (a : Async) :
  open faults w = (w', inr a) ->
  _stream (this w) = None /\ _closed (this w) = false.
Proof.
  unfold open. run_eff.
  destruct (_stream (this w)) as [h|]; cbn [is_some]; [discriminate|].
  destruct (_closed (this w)); [discriminate | auto].
Qed.

(** What a call of [open()] that passes its guards leaves behind. *)
Lemma open_shape (faults : Faults) (w : World) :
  _stream (this w) = None -> _closed (this w) = false ->
  let h := List.length (streams w) in
  let r := open faults w in
  (* the connection gave no stream *)
  (threw r = true /\ this (fst r) = this w /\ streams (fst r) = streams w
   /\ calls (fst r) = calls w ++ [OpenStream "Listen"])
  (* a callback could not be registered: the stream is closed, not kept *)
  \/ (threw r = true /\ this (fst r) = this w
      /\ List.length (streams (fst r)) = S h
      /\ exists cs, calls (fst r) = calls w ++ cs ++ [StreamClose h]
                    /\ forall h', releases h' cs = O)
  (* the stream is installed *)
  \/ (snd r = inr (Awaits (OpenDeferred h))
      /\ this (fst r) = set_stream (Some h) (this w)
      /\ List.length (streams (fst r)) = S h
      /\ exists cs, calls (fst r) = calls w ++ cs
                    /\ forall h', releases h' cs = O).
Proof.
  intros Hs Hc. cbv zeta. unfold open. run_eff. rewrite Hs, Hc. cbn [is_some].
  run_eff.
  destruct (faults (OpenStream "Listen")); [left; repeat split|].
  run_eff.
  destruct (faults (StreamOnOpen _));
    [right; left; run_eff; unfold threw;
     destruct (faults (StreamClose _)); cbn [fst snd calls streams this log_call set_this set_streams];
     rewrite ?length_app, ?update_nth_length, ?length_app,
       <- ?app_assoc; cbn [List.length app];
     (repeat split; [lia|]);
     exists [OpenStream "Listen"; StreamOnOpen (List.length (streams w))];
     split; reflexivity|].
  run_eff.
  destruct (faults (StreamOnClose _));
    [right; left; run_eff; unfold threw;
     destruct (faults (StreamClose _)); cbn [fst snd calls streams this log_call set_this set_streams];
     rewrite ?length_app, ?update_nth_length, ?length_app,
       <- ?app_assoc; cbn [List.length app];
     (repeat split; [lia|]);
     exists [OpenStream "Listen"; StreamOnOpen (List.length (streams w));
             StreamOnClose (List.length (streams w))];
     split; reflexivity|].
  run_eff.
  destruct (faults (StreamOnMessage _));
    [right; left; run_eff; unfold threw;
     destruct (faults (StreamClose _)); cbn [fst snd calls streams this log_call set_this set_streams];
     rewrite ?length_app, ?update_nth_length, ?length_app,
       <- ?app_assoc; cbn [List.length app];
     (repeat split; [lia|]);
     exists [OpenStream "Listen"; StreamOnOpen (List.length (streams w));
             StreamOnClose (List.length (streams w));
             StreamOnMessage (List.length (streams w))];
     split; reflexivity|].
  right; right. cbn [fst snd calls streams this log_call set_this set_streams].
  rewrite ?update_nth_length, ?length_app, <- ?app_assoc.
  cbn [List.length app].
  repeat split; [lia|].
  exists [OpenStream "Listen"; StreamOnOpen (List.length (streams w));
          StreamOnClose (List.length (streams w));
          StreamOnMessage (List.length (streams w))].
  split; reflexivity.
Qed.

Lemma close_run (faults : Faults) (w : World) :
  close faults w =
    if _closed (this w) then (w, inr Returned)
    else
      let w' := set_this (set_closed true (this w)) w in
      match _stream (this w) with
      | None => (w', inr Returned)
      | Some h =>
          (log_call (StreamClose h) w',
           match faults (StreamClose h) with
           | Some e => inl e
           | None => inr (Awaits ClosedDeferred)
           end)
      end.
Proof.
  unfold close. run_eff.
  destruct (_closed (this w)); [reflexivity|].
  destruct (_stream (this w)) as [h|]; [|reflexivity].
  run_eff. destruct (faults _); reflexivity.
Qed.

(** *** The dispatcher writes to the registry only *)

Lemma only_targets_unchanged {A} (c : Eff.t WatchStream A) :
  (forall o, fst (c o) = o) -> only_targets c.
Proof.
  intros H o. exists (_targets o). rewrite H.
  split; [symmetry; apply set_targets_same | reflexivity].
Qed.

Lemma only_targets_ret {A} (a : A) : only_targets (Eff.ret a).
Proof. apply only_targets_unchanged. reflexivity. Qed.

Lemma only_targets_throw {A} (e : Error) : only_targets (@Eff.throw _ A e).
Proof. apply only_targets_unchanged. reflexivity. Qed.

Lemma only_targets_get : only_targets (@Eff.get WatchStream).
Proof. apply only_targets_unchanged. reflexivity. Qed.

Lemma only_targets_bind {A B} (c : Eff.t WatchStream A)
  (k : A -> Eff.t WatchStream B) :
  only_targets c -> (forall a, only_targets (k a)) ->
  only_targets (Eff.bind c k).
Proof.
  intros Hc Hk o. unfold Eff.bind.
  destruct (Hc o) as (m & Hm & Hkeys).
  destruct (c o) as [o' [e|a]]; cbn [fst] in *.
  - eauto.
  - destruct (Hk a o') as (m' & Hm' & Hkeys'). exists m'.
    rewrite Hm', Hkeys', Hm. split; [reflexivity | exact Hkeys].
Qed.

Lemma only_targets_for_of {X} (xs : list X)
  (body : X -> Eff.t WatchStream unit) :
  (forall x, only_targets (body x)) -> only_targets (Eff.for_of xs body).
Proof.
  intros Hb. induction xs as [|x xs IH]; cbn [Eff.for_of].
  - apply only_targets_ret.
  - apply only_targets_bind; auto.
Qed.

Lemma only_targets_map_from {X Y} (xs : list X)
  (f : X -> Eff.t WatchStream Y) :
  (forall x, only_targets (f x)) -> only_targets (Eff.map_from xs f).
Proof.
  intros Hf. induction xs as [|x xs IH]; cbn [Eff.map_from].
  - apply only_targets_ret.
  - apply only_targets_bind; [auto|]. intros y.
    apply only_targets_bind; [auto|]. intros ys. apply only_targets_ret.
Qed.

Lemma only_targets_invoke (ref : Z) (method : Eff.t TargetState unit) :
  only_targets (invoke ref method).
Proof.
  intros o. unfold invoke.
  destruct (JsMap.get (_targets o) ref) as [s|] eqn:Hg.
  - destruct (method s) as [s' r]. eexists. split; [reflexivity|].
    apply keys_set_present. congruence.
  - exists (_targets o).
    split; [symmetry; apply set_targets_same | reflexivity].
Qed.

Create HintDb frame.

#[local] Hint Resolve only_targets_ret only_targets_throw only_targets_get
  only_targets_invoke : frame.

Lemma only_targets_onTargetChange (tc : TargetChange) :
  only_targets (_onTargetChange tc).
Proof.
  unfold _onTargetChange. apply only_targets_bind.
  - unfold _targetStatesForTargetChange. apply only_targets_bind.
    + apply only_targets_map_from. intros id. unfold targetState_for.
      apply only_targets_bind; [apply only_targets_get|].
      intros o. destruct (JsMap.get _ _); auto with frame.
    + intros l. destruct (0 <? _)%nat; [auto with frame|].
      apply only_targets_bind; [apply only_targets_get|].
      intros o. apply only_targets_ret.
  - intros refs. apply only_targets_for_of. intros ref.
    rewrite switch_run. destruct (event_of tc); auto with frame.
Qed.

Lemma only_targets_onMessageReceived (msg : ListenResponse) :
  only_targets (_onMessageReceived msg).
Proof.
  unfold _onMessageReceived, _onDocumentChange, _onDocumentRemove,
    _onDocumentDelete, _onExistenceFilter.
  destruct (targetChange msg); [apply only_targets_onTargetChange|].
  destruct (documentChange msg); auto with frame.
  destruct (documentRemove msg); auto with frame.
  destruct (documentDelete msg); auto with frame.
  destruct (filter msg); auto with frame.
Qed.

(** *** What the steps other than [open()] and [close()] leave alone *)

Lemma step_frame (faults : Faults) (l : Step) (w : World) :
  l <> CallOpen -> l <> CallClose ->
  _stream (this (step faults l w)) = _stream (this w)
  /\ _closed (this (step faults l w)) = _closed (this w)
  /\ List.length (streams (step faults l w)) = List.length (streams w)
  /\ forall h, releases h (calls (step faults l w)) = releases h (calls w).
Proof.
  intros Ho Hc. destruct l as [| |id c k v|h|h err|h msg]; try congruence;
    cbn [step].
  - rewrite addTarget_run.
    destruct (_stream (this w)) as [h|] eqn:Hs; [|cbn [fst]; auto].
    destruct (_closed (this w)) eqn:Hcl; [cbn [fst]; auto|].
    destruct (JsMap.has (_targets (this w)) id); [cbn [fst]; auto|].
    cbv zeta.
    match goal with |- context [faults ?call] => destruct (faults call) end;
      cbn [fst this streams calls set_this log_call _stream _closed
             set_targets];
      repeat split; auto; intros; rewrite ?releases_app; cbn; lia.
  - unfold fire_onOpen. run_eff.
    destruct (registered cbOpen h w); cbn [fst];
      cbn [this streams calls set_streams];
      rewrite ?update_nth_length; auto.
  - unfold fire_onClose. run_eff.
    destruct (registered cbClose h w); [|cbn; auto].
    destruct err as [e|]; run_eff; cbn [set_streams streams this calls];
      rewrite ?update_nth_length; auto.
  - unfold fire_onMessage. run_eff.
    destruct (registered cbMessage h w); [|cbn; auto].
    destruct (only_targets_onMessageReceived msg (this w)) as (m & Hm & _).
    destruct (_onMessageReceived msg (this w)) as [o' r].
    cbn [fst] in *. subst o'. cbn. auto.
Qed.

(** *** What every step keeps *)

Lemma open_unchanged_when_guarded (faults : Faults) (w : World) :
  _stream (this w) <> None \/ _closed (this w) = true ->
  fst (open faults w) = w.
Proof.
  intros H. destruct (open_guarded faults w H) as [e ->]. reflexivity.
Qed.

Ltac use_frame :=
  match goal with
  | |- context [step ?faults ?l ?w] =>
      let H := fresh "Hframe" in
      assert (H := step_frame faults l w
                     ltac:(discriminate) ltac:(discriminate))
  end.

Lemma step_stream_kept (faults : Faults) (l : Step) (w : World) (h : Handle) :
  _stream (this w) = Some h -> _stream (this (step faults l w)) = Some h.
Proof.
  intros Hs.
  destruct l as [| |id c k v|h'|h' err|h' msg];
    try (use_frame; destruct Hframe as [-> _]; exact Hs).
  - cbn [step]. rewrite open_unchanged_when_guarded; [exact Hs|].
    left. congruence.
  - cbn [step]. rewrite close_run, Hs.
    destruct (_closed (this w)); cbn; exact Hs.
Qed.

Lemma step_closed_kept (faults : Faults) (l : Step) (w : World) :
  _closed (this w) = true -> _closed (this (step faults l w)) = true.
Proof.
  intros Hc.
  destruct l as [| |id c k v|h'|h' err|h' msg];
    try (use_frame; destruct Hframe as (_ & -> & _); exact Hc).
  - cbn [step]. rewrite open_unchanged_when_guarded; auto.
  - cbn [step]. rewrite close_run, Hc. exact Hc.
Qed.

Lemma run_stream_kept (history : list (Faults * Step)) :
  forall (w : World) (h : Handle),
    _stream (this w) = Some h -> _stream (this (run history w)) = Some h.
Proof.
  induction history as [|[faults l] history IH]; intros w h Hs; cbn [run].
  - exact Hs.
  - apply IH, step_stream_kept, Hs.
Qed.

Lemma run_closed_kept (history : list (Faults * Step)) :
  forall w : World,
    _closed (this w) = true -> _closed (this (run history w)) = true.
Proof.
  induction history as [|[faults l] history IH]; intros w Hc; cbn [run].
  - exact Hc.
  - apply IH, step_closed_kept, Hc.
Qed.

Lemma close_closes (faults : Faults) (w : World) :
  _closed (this (fst (close faults w))) = true.
Proof.
  rewrite close_run. destruct (_closed (this w)) eqn:Hc; [exact Hc|].
  cbv zeta. destruct (_stream (this w)); reflexivity.
Qed.

Lemma releases_single (h h' : Handle) :
  releases h [StreamClose h'] = if Nat.eqb h' h then 1%nat else O.
Proof. cbn. destruct (Nat.eqb h' h); reflexivity. Qed.

Lemma new_world_invariant (projectId : string) :
  channel_invariant (World_new projectId).
Proof. constructor; cbn; intros; auto; discriminate. Qed.

Lemma open_invariant (faults : Faults) (w : World) :
  channel_invariant w -> channel_invariant (fst (open faults w)).
Proof.
  intros Hinv.
  destruct (_stream (this w)) as [h0|] eqn:Hs.
  { rewrite open_unchanged_when_guarded by (left; congruence).
    exact Hinv. }
  destruct (_closed (this w)) eqn:Hc.
  { rewrite open_unchanged_when_guarded by (right; exact Hc).
    exact Hinv. }
  destruct Hinv as [Hknown Hheld Hunknown Honce].
  destruct (open_shape faults w Hs Hc)
    as [(_ & Ht & Hst & Hcs)
       |[(_ & Ht & Hlen & cs & Hcs & Hfree)
        |(_ & Ht & Hlen & cs & Hcs & Hfree)]].
  - constructor; rewrite ?Ht, ?Hst, ?Hcs, ?Hs; try discriminate.
    + intros h Hh. rewrite releases_app. cbn. rewrite Nat.add_0_r. auto.
    + intros h. rewrite releases_app. cbn. rewrite Nat.add_0_r. auto.
  - constructor; rewrite ?Ht, ?Hlen, ?Hcs, ?Hs; try discriminate.
    + intros h Hh. rewrite !releases_app, Hfree, releases_single.
      destruct (Nat.eqb_spec (List.length (streams w)) h); [lia|].
      rewrite Hunknown by lia. reflexivity.
    + intros h. rewrite !releases_app, Hfree, releases_single.
      destruct (Nat.eqb_spec (List.length (streams w)) h) as [<-|Hne].
      * rewrite Hunknown by lia. lia.
      * cbn. rewrite Nat.add_0_r. apply Honce.
  - constructor; rewrite ?Ht, ?Hlen, ?Hcs; cbn [_stream _closed set_stream].
    + intros h [= <-]. lia.
    + intros h [= <-] _. rewrite releases_app, Hfree, Hunknown by lia.
      reflexivity.
    + intros h Hh. rewrite releases_app, Hfree, Hunknown by lia. reflexivity.
    + intros h. rewrite releases_app, Hfree, Nat.add_0_r. apply Honce.
Qed.

Lemma close_invariant (faults : Faults) (w : World) :
  channel_invariant w -> channel_invariant (fst (close faults w)).
Proof.
  intros Hinv. rewrite close_run.
  destruct (_closed (this w)) eqn:Hc; [exact Hinv|].
  cbv zeta. destruct (_stream (this w)) as [h0|] eqn:Hs; cbn [fst];
    destruct Hinv as [Hknown Hheld Hunknown Honce].
  - constructor;
      cbn [this streams calls log_call set_this set_closed _stream _closed];
      rewrite ?Hs.
    + intros h [= <-]. exact (Hknown h0 Hs).
    + discriminate.
    + intros h Hh. rewrite releases_app, releases_single.
      specialize (Hknown h0 Hs).
      destruct (Nat.eqb_spec h0 h); [lia|].
      rewrite Hunknown by exact Hh. reflexivity.
    + intros h. rewrite releases_app, releases_single.
      destruct (Nat.eqb_spec h0 h) as [<-|Hne].
      * rewrite (Hheld h0 Hs Hc). lia.
      * rewrite Nat.add_0_r. apply Honce.
  - constructor;
      cbn [this streams calls log_call set_this set_closed _stream _closed];
      rewrite ?Hs; auto; discriminate.
Qed.

Lemma step_invariant (faults : Faults) (l : Step) (w : World) :
  channel_invariant w -> channel_invariant (step faults l w).
Proof.
  intros Hinv.
  destruct l as [| |id c k v|h'|h' err|h' msg];
    try (use_frame; destruct Hframe as (Hs & Hc & Hlen & Hcs);
         destruct Hinv as [Hknown Hheld Hunknown Honce];
         constructor; rewrite ?Hs, ?Hc, ?Hlen; intros; rewrite ?Hcs; auto).
  - apply open_invariant, Hinv.
  - apply close_invariant, Hinv.
Qed.

Lemma run_invariant (history : list (Faults * Step)) :
  forall w : World, channel_invariant w -> channel_invariant (run history w).
Proof.
  induction history as [|[faults l] history IH]; intros w Hinv; cbn [run].
  - exact Hinv.
  - apply IH, step_invariant, Hinv.
Qed.

(** The keys of the registry stay distinct: the hypothesis of the broadcast
    statement holds in every state a new [WatchStream] can reach. *)
Lemma step_registry_wf (faults : Faults) (l : Step) (w : World) :
  JsMap.wf (_targets (this w)) ->
  JsMap.wf (_targets (this (step faults l w))).
Proof.
  intros Hwf. destruct l as [| |id c k v|h|h err|h msg]; cbn [step].
  - destruct (_stream (this w)) as [h0|] eqn:Hs.
    { rewrite open_unchanged_when_guarded by (left; congruence). exact Hwf. }
    destruct (_closed (this w)) eqn:Hc.
    { rewrite open_unchanged_when_guarded by (right; exact Hc). exact Hwf. }
    destruct (open_shape faults w Hs Hc)
      as [(_ & Ht & _)|[(_ & Ht & _)|(_ & Ht & _)]]; rewrite Ht; exact Hwf.
  - rewrite close_run. destruct (_closed (this w)); [exact Hwf|].
    cbv zeta. destruct (_stream (this w)); exact Hwf.
  - rewrite addTarget_run.
    destruct (_stream (this w)) as [h|]; [|exact Hwf].
    destruct (_closed (this w)); [exact Hwf|].
    destruct (JsMap.has (_targets (this w)) id); [exact Hwf|].
    cbv zeta.
    match goal with |- context [faults ?call] => destruct (faults call) end;
      [exact Hwf|].
    cbn [fst this set_this _targets set_targets]. apply wf_set, Hwf.
  - unfold fire_onOpen. run_eff.
    destruct (registered cbOpen h w); exact Hwf.
  - unfold fire_onClose. run_eff.
    destruct (registered cbClose h w); [|exact Hwf].
    destruct err as [e|]; exact Hwf.
  - unfold fire_onMessage. run_eff.
    destruct (registered cbMessage h w); [|exact Hwf].
    destruct (only_targets_onMessageReceived msg (this w)) as (m & Hm & Hk).
    destruct (_onMessageReceived msg (this w)) as [o' r].
    cbn [fst] in *. subst o'. cbn [this set_this _targets set_targets fst].
    unfold JsMap.wf in *. rewrite Hk. exact Hwf.
Qed.

Lemma run_registry_wf (history : list (Faults * Step)) :
  forall w : World,
    JsMap.wf (_targets (this w)) ->
    JsMap.wf (_targets (this (run history w))).
Proof.
  induction history as [|[faults l] history IH]; intros w Hwf; cbn [run].
  - exact Hwf.
  - apply IH, step_registry_wf, Hwf.
Qed.

Lemma reachable_registry_wf (projectId : string)
  (history : list (Faults * Step)) :
  JsMap.wf (_targets (this (run history (World_new projectId)))).
Proof. apply run_registry_wf. constructor. Qed.

Lemma open_installs (faults : Faults) (w w' : World) (a : Async) :
  open faults w = (w', inr a) ->
  exists h, _stream (this w') = Some h /\ a = Awaits (OpenDeferred h).
Proof.
  intros Hopen. destruct (open_passed faults w w' a Hopen) as [Hs Hc].
  destruct (open_shape faults w Hs Hc)
    as [(Hthrew & _)|[(Hthrew & _)|(Hr & Ht & _)]];
    rewrite Hopen in *; cbn [fst snd] in *.
  - discriminate Hthrew.
  - discriminate Hthrew.
  - exists (List.length (streams w)). rewrite Ht. split; [reflexivity|].
    congruence.
Qed.

(** C7 as first worded, at an input where it fails: the transport throws
    while the first [open()] registers its callbacks; that call releases the
    stream it obtained and installs nothing, so a second [open()] passes the
    guards and obtains a new stream. *)
Lemma second_open_after_failed_registration :
  let faults1 : Faults :=
    fun c =>
      match c with
      | StreamOnOpen _ => Some (TransportError "onOpen")
      | _ => None
      end in
  let first := open faults1 (World_new "p") in
  let second := open no_faults (fst first) in
  threw first = true
  /\ _stream (this (fst first)) = None
  /\ releases O (calls (fst first)) = 1%nat
  /\ snd second = inr (Awaits (OpenDeferred 1%nat))
  /\ acquisitions (calls (fst first)) = 1%nat
  /\ acquisitions (calls (fst second)) = 2%nat.
Proof. cbv zeta. repeat split. Qed.

(** ** BloomFilter *)

Import BloomFilter.

(** The expectations of the unit tests on the constructor. *)
Example BloomFilter_unit_tests :
  (exists bf, new [] 0 0 = inr bf /\ bitCount bf = 0)
  /\ new [] 1 0 = inl (InvalidPadding 1)
  /\ new [] 0 (-1) = inl (InvalidHashCount (-1))
  /\ (forall p, 0 <= p <= 7 ->
        exists bf, new [Byte.x00] p 1 = inr bf /\ bitCount bf = 8 - p)
  /\ new [Byte.x00] (-1) 1 = inl (InvalidPadding (-1))
  /\ new [Byte.x00] 8 1 = inl (InvalidPadding 8)
  /\ new [Byte.x00] 1 (-1) = inl (InvalidHashCount (-1))
  /\ new [Byte.x00] 1 0 = inl (InvalidHashCount 0).
Proof.
  repeat split; try reflexivity.
  - eexists. split; reflexivity.
  - intros p Hp. unfold new. cbn [size List.length Z.of_nat Z.eqb].
    cbn [Pos.of_succ_nat]. cbn.
    destruct (Z.leb_spec 0 p); [|lia].
    destruct (Z.leb_spec p 7); [|lia].
    cbn. eexists. split; reflexivity.
Qed.

Lemma new_run (bits : list Byte.byte) (padding hashCount : Z) :
  (bad_padding bits padding
   /\ new bits padding hashCount = inl (InvalidPadding padding))
  \/ (~ bad_padding bits padding /\ bad_hashCount bits hashCount
      /\ new bits padding hashCount = inl (InvalidHashCount hashCount))
  \/ (~ bad_padding bits padding /\ ~ bad_hashCount bits hashCount
      /\ new bits padding hashCount
         = inr (mk bits padding hashCount
                  (if size bits =? 0 then 0 else size bits * 8 - padding))).
Proof.
  unfold new, bad_padding, bad_hashCount.
  assert (Hsize : 0 <= size bits) by (unfold size; lia).
  destruct (Z.eqb_spec (size bits) 0) as [Hz|Hnz].
  - destruct (Z.eqb_spec padding 0) as [Hp|Hp]; cbn [negb].
    + destruct (Z.ltb_spec hashCount 0).
      * right; left. repeat split; auto; lia.
      * right; right. repeat split; auto; lia.
    + left. split; auto.
  - destruct (Z.leb_spec 0 padding); cbn [andb negb];
      [destruct (Z.leb_spec padding 7); cbn [negb]|].
    + destruct (Z.ltb_spec hashCount 1).
      * right; left. repeat split; auto; lia.
      * right; right. repeat split; auto; lia.
    + left. split; auto. right. lia.
    + left. split; auto. right. lia.
Qed.

(** C5, amended: construction fails exactly when the padding is wrong (an
    empty bitmap with a padding other than [0], a non-empty one with a
    padding outside [0,7]) or the hash count is wrong (negative, or [0] with
    a non-empty bitmap), and then with one error that names the offending
    value: a padding error only when the padding is wrong, a hash-count
    error only when the hash count is wrong.  So with the padding alone
    wrong it is the padding error, with the hash count alone wrong the
    hash-count error, and for a non-empty bitmap with both wrong the padding
    error.  Which of the two an empty bitmap with both wrong gives is left
    open.  An instance exists only for valid arguments, whose fields it
    then carries. *)
Theorem BloomFilter_new_errors (bits : list Byte.byte)
  (padding hashCount : Z) :
  ((exists e, new bits padding hashCount = inl e)
   <-> bad_padding bits padding \/ bad_hashCount bits hashCount)
  /\ (is_InvalidPadding (new bits padding hashCount) = true ->
      bad_padding bits padding)
  /\ (is_InvalidHashCount (new bits padding hashCount) = true ->
      bad_hashCount bits hashCount)
  /\ (bad_padding bits padding -> ~ bad_hashCount bits hashCount ->
      new bits padding hashCount = inl (InvalidPadding padding))
  /\ (bad_hashCount bits hashCount -> ~ bad_padding bits padding ->
      new bits padding hashCount = inl (InvalidHashCount hashCount))
  /\ (size bits > 0 -> bad_padding bits padding ->
      new bits padding hashCount = inl (InvalidPadding padding))
  /\ (forall e,
        new bits padding hashCount = inl e ->
        e = InvalidPadding padding \/ e = InvalidHashCount hashCount)
  /\ (forall bf,
        new bits padding hashCount = inr bf ->
        ~ bad_padding bits padding /\ ~ bad_hashCount bits hashCount
        /\ bf = mk bits padding hashCount
                  (if size bits =? 0 then 0 else size bits * 8 - padding)).
Proof.
  destruct (new_run bits padding hashCount)
    as [(Hp & ->)|[(Hp & Hh & ->)|(Hp & Hh & ->)]]; cbn.
  - repeat split; try tauto; try discriminate; eauto.
    intros e [= <-]. auto.
  - repeat split; try tauto; try discriminate; eauto.
    intros e [= <-]. auto.
  - repeat split; try tauto; try discriminate.
    + intros [e He]. discriminate.
    + congruence.
Qed.

Lemma BloomFilter_new_errors_witness :
  new [Byte.x00] 8 0 = inl (InvalidPadding 8)
  /\ new [Byte.x00] 1 0 = inl (InvalidHashCount 0)
  /\ new [] 1 0 = inl (InvalidPadding 1)
  /\ new [] 0 (-1) = inl (InvalidHashCount (-1)).
Proof.
  split; [|split; [|split]].
  - destruct (BloomFilter_new_errors [Byte.x00] 8 0)
      as (_ & _ & _ & _ & _ & Hfirst & _).
    apply Hfirst; [cbn; lia|]. right. cbn. lia.
  - destruct (BloomFilter_new_errors [Byte.x00] 1 0)
      as (_ & _ & _ & _ & Hhash & _).
    apply Hhash; [right; cbn; lia|].
    intros [[H _]|[_ H]]; cbn in *; [discriminate | lia].
  - destruct (BloomFilter_new_errors [] 1 0)
      as (_ & _ & _ & Hpad & _).
    apply Hpad; [left; cbn; split; [reflexivity | discriminate]|].
    intros [H|[H _]]; cbn in *; [lia | discriminate].
  - destruct (BloomFilter_new_errors [] 0 (-1))
      as (_ & _ & _ & _ & Hhash & _).
    apply Hhash; [left; lia|].
    intros [[_ H]|[H _]]; cbn in *; [apply H; reflexivity | discriminate].
Defined.

(** C5 as first worded, at an input where it fails: a non-empty bitmap with
    padding [8] and hash count [0] meets the stated condition of the
    hash-count error, yet construction fails with the padding error, which
    is checked first. *)
Lemma hashCount_error_only_with_valid_padding :
  bad_hashCount [Byte.x00] 0
  /\ new [Byte.x00] 8 0 = inl (InvalidPadding 8)
  /\ is_InvalidHashCount (new [Byte.x00] 8 0) = false.
Proof.
  split; [right; cbn; lia|]. split; reflexivity.
Qed.

(** C6: a filter constructed from an empty bitmap has [bitCount] [0], and
    [mightContain] answers [false] for every key, the empty string
    included. *)
Theorem empty_filter_contains_nothing
  (utf8 : string -> list Byte.byte) (hash128 : list Byte.byte -> Z * Z)
  (bit_of_byte : Byte.byte -> Z -> bool)
  (bits : list Byte.byte) (padding hashCount : Z) (bf : BloomFilter.t) :
  new bits padding hashCount = inr bf ->
  size bits = 0 ->
  bitCount bf = 0
  /\ forall key, mightContain utf8 hash128 bit_of_byte bf key = false.
Proof.
  intros Hnew Hempty.
  assert (Hbits : bitCount bf = 0).
  { destruct (new_run bits padding hashCount)
      as [(_ & Hr)|[(_ & _ & Hr)|(_ & _ & Hr)]];
      rewrite Hr in Hnew; try discriminate.
    injection Hnew as <-. rewrite Hempty. reflexivity. }
  split; [exact Hbits|].
  intros key. unfold mightContain. rewrite Hbits. reflexivity.
Qed.

Lemma empty_filter_contains_nothing_witness :
  let utf8 := fun key : string => List.map Ascii.byte_of_ascii
                                    (list_ascii_of_string key) in
  let hash128 := fun bytes : list Byte.byte =>
                   (Z.of_nat (List.length bytes), 1) in
  let bf := mk [] 0 0 0 in
  bitCount bf = 0
  /\ mightContain utf8 hash128 (fun _ _ => true) bf "" = false
  /\ mightContain utf8 hash128 (fun _ _ => true) bf "abc" = false.
Proof.
  intros utf8 hash128 bf.
  destruct (empty_filter_contains_nothing utf8 hash128 (fun _ _ => true)
              [] 0 0 bf eq_refl eq_refl) as [Hcount Hnone].
  split; [exact Hcount|]. split; apply Hnone.
Defined.

(** *** The probe scheme of [mightContain]

    For any hash function and bit order: the probed positions lie in
    [[0, bitCount)], and the answer is [true] exactly when every probed bit
    is set. *)

Section Probes.

Variable utf8 : string -> list Byte.byte.
Variable hash128 : list Byte.byte -> Z * Z.
Variable bit_of_byte : Byte.byte -> Z -> bool.

Lemma probe_in_range (bf : BloomFilter.t) (h1 h2 i : Z) :
  0 < bitCount bf -> 0 <= probe bf h1 h2 i < bitCount bf.
Proof. intros H. unfold probe. apply Z.mod_pos_bound, H. Qed.

Lemma probes_all (bf : BloomFilter.t) (h1 h2 : Z) (n : nat) :
  forall i,
    probes bit_of_byte bf h1 h2 i n = true
    <-> forall j, i <= j < i + Z.of_nat n ->
                  isBitSet bit_of_byte bf (probe bf h1 h2 j) = true.
Proof.
  induction n as [|n IH]; intros i; cbn [probes].
  - split; [intros _ j Hj; lia | reflexivity].
  - destruct (isBitSet bit_of_byte bf (probe bf h1 h2 i)) eqn:Hbit.
    + rewrite IH. split; intros H j Hj.
      * destruct (Z.eq_dec j i) as [->|Hne]; [exact Hbit|].
        apply H. lia.
      * apply H. lia.
    + split; [discriminate|]. intros H.
      rewrite <- Hbit. apply H. lia.
Qed.

Lemma mightContain_probes (bf : BloomFilter.t) (key : string) :
  0 < bitCount bf -> 0 <= hashCount bf ->
  mightContain utf8 hash128 bit_of_byte bf key = true
  <-> forall i, 0 <= i < hashCount bf ->
                isBitSet bit_of_byte bf
                  (probe bf (fst (hash128 (utf8 key)))
                     (snd (hash128 (utf8 key))) i) = true.
Proof.
  intros Hbits Hcount. unfold mightContain.
  destruct (Z.eqb_spec (bitCount bf) 0); [lia|].
  destruct (hash128 (utf8 key)) as [h1 h2]. cbn [fst snd].
  rewrite probes_all. rewrite Z2Nat.id by exact Hcount. reflexivity.
Qed.

End Probes.

(** ** Further properties of [TargetState] *)

Lemma deliver_coherent (ev : TargetEvent) (s : TargetState) :
  coherent s -> coherent (fst (deliver ev s)).
Proof.
  unfold coherent. rewrite deliver_run.
  destruct ev as [| | | |[t|]]; destruct s as [[|] [|] r]; cbn; auto.
Qed.

(** X1: whatever events a new [TargetState] receives, accepted or not, it
    is never current without being added. *)
Theorem current_only_when_added (evs : list TargetEvent) :
  coherent (fst (deliver_all evs TargetState_new)).
Proof.
  assert (H : forall s, coherent s -> coherent (fst (deliver_all evs s))).
  { unfold deliver_all.
    induction evs as [|ev evs IH]; intros s Hs; cbn [Eff.for_of].
    - exact Hs.
    - unfold Eff.bind. pose proof (deliver_coherent ev s Hs) as Hstep.
      destruct (deliver ev s) as [s' [e|[]]]; cbn [fst] in *; auto. }
  apply H. unfold coherent. cbn. discriminate.
Qed.

(** X2: on an added [TargetState], [onCurrent] and [onReset] never throw, each
    is idempotent, and of two in a row the last one decides. *)
Theorem current_reset_last_wins (s : TargetState) :
  _added s = true ->
  snd (onCurrent s) = inr tt /\ snd (onReset s) = inr tt
  /\ (onCurrent ;; onCurrent) s = onCurrent s
  /\ (onReset ;; onReset) s = onReset s
  /\ (onCurrent ;; onReset) s = onReset s
  /\ (onReset ;; onCurrent) s = onCurrent s.
Proof.
  intros Ha. unfold Eff.bind.
  rewrite onCurrent_run, onReset_run, Ha.
  rewrite onCurrent_run, onReset_run. cbn. auto 6.
Qed.

Lemma current_reset_last_wins_witness :
  let s := mkTargetState true false (Some (TokenString "t")) in
  (onReset ;; onCurrent) s = (mkTargetState true true (Some (TokenString "t")),
                              inr tt).
Proof.
  intros s.
  destruct (current_reset_last_wins s eq_refl) as (_ & _ & _ & _ & _ & H).
  rewrite H. reflexivity.
Defined.

(** ** Properties kept by a computation *)

Lemma keeps_unchanged {S A} (Q : S -> Prop) (c : Eff.t S A) :
  (forall s, fst (c s) = s) -> keeps Q c.
Proof. intros H s Hs. rewrite H. exact Hs. Qed.

Lemma keeps_bind {S A B} (Q : S -> Prop) (c : Eff.t S A)
  (k : A -> Eff.t S B) :
  keeps Q c -> (forall a, keeps Q (k a)) -> keeps Q (Eff.bind c k).
Proof.
  intros Hc Hk s Hs. unfold Eff.bind. specialize (Hc s Hs).
  destruct (c s) as [s' [e|a]]; cbn [fst] in *; [exact Hc|].
  apply Hk, Hc.
Qed.

Lemma keeps_for_of {S X} (Q : S -> Prop) (xs : list X)
  (body : X -> Eff.t S unit) :
  (forall x, In x xs -> keeps Q (body x)) -> keeps Q (Eff.for_of xs body).
Proof.
  induction xs as [|x xs IH]; intros Hb; cbn [Eff.for_of].
  - apply keeps_unchanged. reflexivity.
  - apply keeps_bind; [apply Hb; left; reflexivity|].
    intros _. apply IH. intros y Hy. apply Hb. right. exact Hy.
Qed.

Lemma resolution_unchanged (tc : TargetChange) (o : WatchStream) :
  fst (_targetStatesForTargetChange tc o) = o.
Proof.
  rewrite resolution_run.
  destruct (targetIds tc) as [ids|]; [|reflexivity].
  destruct (known_or_unknown o ids) as [Hk|Hbad].
  - rewrite resolve_known by exact Hk.
    destruct (0 <? List.length ids)%nat; reflexivity.
  - destruct (resolve_unknown o ids Hbad) as (id & _ & _ & ->). reflexivity.
Qed.

(** The references resolved are registered, and listed ones are the listed
    identifiers. *)
Lemma resolution_refs (tc : TargetChange) (o : WatchStream) (refs : list Z) :
  snd (_targetStatesForTargetChange tc o) = inr refs ->
  (forall ref, In ref refs -> JsMap.get (_targets o) ref <> None)
  /\ (forall ids, targetIds tc = Some ids -> ids <> [] -> refs = ids).
Proof.
  rewrite resolution_run.
  destruct (targetIds tc) as [ids|] eqn:Hids.
  - destruct (known_or_unknown o ids) as [Hk|Hbad].
    + rewrite resolve_known by exact Hk.
      destruct ids as [|i ids]; cbn [List.length Nat.ltb Nat.leb snd].
      * intros [= <-]. split; [apply keys_known|].
        intros ids [= <-] Hne. contradiction.
      * intros [= <-]. split; [exact Hk|]. intros ids' [= <-] _. reflexivity.
    + destruct (resolve_unknown o ids Hbad) as (id & _ & _ & ->).
      discriminate.
  - cbn. intros [= <-]. split; [apply keys_known|]. discriminate.
Qed.

Lemma in_set_iff {V} (m : JsMap.t V) (k : Z) (v v0 : V) (entry : Z * V) :
  JsMap.get m k = Some v0 ->
  In entry (JsMap.set m k v) -> entry = (k, v) \/ In entry m.
Proof.
  induction m as [|[k' v'] m IH]; cbn; [discriminate|].
  destruct (Z.eqb_spec k' k) as [->|Hne].
  - intros _ [<-|Hin]; auto.
  - intros Hg [<-|Hin]; auto. destruct (IH Hg Hin); auto.
Qed.

Lemma get_in {V} (m : JsMap.t V) (k : Z) (v : V) :
  JsMap.get m k = Some v -> In (k, v) m.
Proof.
  induction m as [|[k' v'] m IH]; cbn; [discriminate|].
  destruct (Z.eqb_spec k' k) as [->|Hne]; [intros [= ->]; auto | auto].
Qed.

(** A method that keeps [P] on the object keeps it on the whole registry. *)
Lemma invoke_keeps_all (P : TargetState -> Prop) (ref : Z)
  (method : Eff.t TargetState unit) :
  (forall s, P s -> P (fst (method s))) ->
  keeps (all_targets P) (invoke ref method).
Proof.
  intros Hm o Ho. unfold invoke.
  destruct (JsMap.get (_targets o) ref) as [s|] eqn:Hg; [|exact Ho].
  unfold all_targets in *. rewrite Forall_forall in Ho.
  pose proof (Ho _ (get_in _ _ _ Hg)) as Hs. cbn [snd] in Hs.
  specialize (Hm s Hs).
  destruct (method s) as [s' r]. cbn [fst set_targets _targets] in *.
  apply Forall_forall. intros entry Hin.
  destruct (in_set_iff _ _ _ _ _ Hg Hin) as [->|Hold]; [exact Hm | auto].
Qed.

(** Dispatching a message keeps on every registered object what each event
    it can deliver keeps on one. *)
Lemma dispatch_keeps_all (P : TargetState -> Prop) (msg : ListenResponse) :
  (forall tc ev, targetChange msg = Some tc -> event_of tc = Some ev ->
                 forall s, P s -> P (fst (deliver ev s))) ->
  keeps (all_targets P) (_onMessageReceived msg).
Proof.
  intros HP. unfold _onMessageReceived.
  destruct (targetChange msg) as [tc|].
  - unfold _onTargetChange. apply keeps_bind.
    + apply keeps_unchanged, resolution_unchanged.
    + intros refs. apply keeps_for_of. intros ref _.
      rewrite switch_run. destruct (event_of tc) as [ev|] eqn:Hev.
      * apply invoke_keeps_all. apply (HP tc ev eq_refl Hev).
      * apply keeps_unchanged. reflexivity.
  - destruct (documentChange msg); [apply keeps_unchanged; reflexivity|].
    destruct (documentRemove msg); [apply keeps_unchanged; reflexivity|].
    destruct (documentDelete msg); [apply keeps_unchanged; reflexivity|].
    destruct (filter msg); apply keeps_unchanged; reflexivity.
Qed.

(** ** The registry along a history *)

(** [open()] sends nothing. *)
Lemma open_calls (faults : Faults) (w : World) :
  exists cs,
    calls (fst (open faults w)) = calls w ++ cs
    /\ forall h msg, ~ In (StreamSend h msg) cs.
Proof.
  unfold open. run_eff.
  destruct (is_some (_stream (this w)));
    [exists []; cbn; rewrite app_nil_r; auto|].
  destruct (_closed (this w));
    [exists []; cbn; rewrite app_nil_r; auto|].
  run_eff.
  repeat match goal with
         | |- context [faults ?call] => destruct (faults call); run_eff
         end;
    cbn [calls log_call set_streams set_this fst];
    rewrite <- ?app_assoc; cbn [app];
    (eexists; split; [reflexivity|]);
    intros h msg Hin; cbn in Hin; intuition discriminate.
Qed.

(** What one step does to the registry: nothing, or [addTarget] appends a
    new object under an unused identifier after sending its message, or a
    message is dispatched. *)
Lemma step_registry_cases (faults : Faults) (l : Step) (w : World) :
  (_targets (this (step faults l w)) = _targets (this w)
   /\ (forall h msg, In (StreamSend h msg) (calls (step faults l w)) ->
                     In (StreamSend h msg) (calls w)))
  \/ (exists id c k v h,
        l = CallAddTarget id c k v
        /\ _stream (this w) = Some h /\ _closed (this w) = false
        /\ JsMap.get (_targets (this w)) id = None
        /\ _targets (this (step faults l w))
           = _targets (this w) ++ [(id, TargetState_new)]
        /\ calls (step faults l w)
           = calls w
               ++ [StreamSend h
                     (addTarget_message (_projectId (this w)) id c k v)])
  \/ (exists id c k v h,
        l = CallAddTarget id c k v
        /\ _stream (this w) = Some h /\ _closed (this w) = false
        /\ _targets (this (step faults l w)) = _targets (this w)
        /\ calls (step faults l w)
           = calls w
               ++ [StreamSend h
                     (addTarget_message (_projectId (this w)) id c k v)])
  \/ (exists h msg,
        l = FireOnMessage h msg
        /\ this (step faults l w) = fst (_onMessageReceived msg (this w))
        /\ calls (step faults l w) = calls w).
Proof.
  destruct l as [| |id c k v|h|h err|h msg]; cbn [step].
  - left. split.
    + destruct (_stream (this w)) as [h0|] eqn:Hs.
      { rewrite open_unchanged_when_guarded by (left; congruence). auto. }
      destruct (_closed (this w)) eqn:Hc.
      { rewrite open_unchanged_when_guarded by (right; exact Hc). auto. }
      destruct (open_shape faults w Hs Hc)
        as [(_ & Ht & _)|[(_ & Ht & _)|(_ & Ht & _)]]; rewrite Ht; reflexivity.
    + destruct (open_calls faults w) as (cs & -> & Hfree).
      intros h msg Hin. apply in_app_or in Hin.
      destruct Hin as [Hin|Hin]; [exact Hin | destruct (Hfree h msg Hin)].
  - left. rewrite close_run. destruct (_closed (this w)); [auto|].
    cbv zeta. destruct (_stream (this w)) as [h0|]; cbn; [|auto].
    split; [reflexivity|]. intros h msg Hin.
    apply in_app_or in Hin. destruct Hin as [Hin|[Hin|[]]];
      [exact Hin | discriminate].
  - rewrite addTarget_run.
    destruct (_stream (this w)) as [h|] eqn:Hs; [|left; auto].
    destruct (_closed (this w)) eqn:Hc; [left; auto|].
    unfold JsMap.has.
    destruct (JsMap.get (_targets (this w)) id) eqn:Hg; [left; auto|].
    cbv zeta.
    match goal with |- context [faults ?call] => destruct (faults call) end.
    + right; right; left. exists id, c, k, v, h. cbn. auto.
    + right; left. exists id, c, k, v, h.
      cbn [fst this calls set_this log_call _targets set_targets].
      rewrite keys_set_absent by exact Hg. auto 7.
  - left. unfold fire_onOpen. run_eff.
    destruct (registered cbOpen h w); cbn; auto.
  - left. unfold fire_onClose. run_eff.
    destruct (registered cbClose h w); [|cbn; auto].
    destruct err; cbn; auto.
  - unfold fire_onMessage. run_eff.
    destruct (registered cbMessage h w) eqn:Hr.
    + right; right; right. exists h, msg.
      destruct (_onMessageReceived msg (this w)) as [o' r]. cbn. auto.
    + left. cbn. auto.
Qed.

Lemma step_all_targets (P : TargetState -> Prop) (faults : Faults)
  (l : Step) (w : World) :
  P TargetState_new ->
  (forall h msg tc ev,
      l = FireOnMessage h msg -> targetChange msg = Some tc ->
      event_of tc = Some ev -> forall s, P s -> P (fst (deliver ev s))) ->
  all_targets P (this w) -> all_targets P (this (step faults l w)).
Proof.
  intros Hnew Hdel Hall.
  destruct (step_registry_cases faults l w)
    as [[Ht _]|[(id & c & k & v & h & _ & _ & _ & _ & Ht & _)
       |[(id & c & k & v & h & _ & _ & _ & Ht & _)
        |(h & msg & -> & Ht & _)]]].
  - unfold all_targets. rewrite Ht. exact Hall.
  - unfold all_targets in *. rewrite Ht. apply Forall_app. split; auto.
  - unfold all_targets. rewrite Ht. exact Hall.
  - rewrite Ht. apply dispatch_keeps_all; [|exact Hall].
    intros tc ev Htc Hev. apply (Hdel h msg tc ev eq_refl Htc Hev).
Qed.

(** X3: in every state a new [WatchStream] can reach, through any calls,
    callbacks, messages and faults of the transport, no registered target is
    current without being added. *)
Theorem registered_targets_coherent (projectId : string)
  (history : list (Faults * Step)) :
  all_targets coherent (this (run history (World_new projectId))).
Proof.
  assert (H : forall w, all_targets coherent (this w) ->
                        all_targets coherent (this (run history w))).
  { induction history as [|[faults l] history IH]; intros w Hw; cbn [run].
    - exact Hw.
    - apply IH, step_all_targets; [discriminate| |exact Hw].
      intros _ _ _ ev _ _ _ s. apply deliver_coherent. }
  apply H. constructor.
Qed.

Lemma deliver_token (tc : TargetChange) (ev : TargetEvent) (s : TargetState) :
  event_of tc = Some ev ->
  _resumeToken (fst (deliver ev s)) = _resumeToken s
  \/ (_resumeToken (fst (deliver ev s)) = resumeToken tc
      /\ resumeToken tc <> None).
Proof.
  unfold event_of. destruct (targetChangeType tc) as [ty|]; [|discriminate].
  repeat match goal with
         | |- context [String.eqb ty ?c] => destruct (String.eqb ty c)
         end; intros [= <-]; rewrite deliver_run;
    try (destruct (_added s), (_current s); left; reflexivity).
  destruct (resumeToken tc) as [t|];
    destruct (_added s), (_current s); cbn; auto.
  right. split; [reflexivity | discriminate].
Qed.

Lemma tokens_received_cons (faults : Faults) (l : Step)
  (history : list (Faults * Step)) :
  tokens_received ((faults, l) :: history)
  = tokens_received [(faults, l)] ++ tokens_received history.
Proof.
  cbn [tokens_received]. destruct l; try reflexivity.
  destruct (targetChange msg) as [tc|]; [|reflexivity].
  destruct (resumeToken tc); reflexivity.
Qed.

Lemma run_tokens (history : list (Faults * Step)) :
  forall (w : World) (seen : list Token),
    all_targets (fun s => forall t, _resumeToken s = Some t -> In t seen)
      (this w) ->
    all_targets
      (fun s => forall t, _resumeToken s = Some t ->
                          In t (seen ++ tokens_received history))
      (this (run history w)).
Proof.
  induction history as [|[faults l] history IH]; intros w seen Hw.
  - cbn [run tokens_received]. rewrite app_nil_r. exact Hw.
  - rewrite tokens_received_cons, app_assoc. cbn [run].
    apply IH.
    apply step_all_targets.
    + discriminate.
    + intros h msg tc ev Hl Htc Hev s Hs t Ht.
      destruct (deliver_token tc ev s Hev) as [Hsame|[Hnew Hsome]].
      * rewrite Hsame in Ht. exact (Hs t Ht).
      * rewrite Hnew in Ht. apply in_or_app. right.
        rewrite Hl. cbn [tokens_received]. rewrite Htc, Ht.
        left. reflexivity.
    + unfold all_targets in *. rewrite Forall_forall in *.
      intros entry Hin t Ht. apply in_or_app. left. apply (Hw entry Hin t Ht).
Qed.

(** X4: a resume token held by a registered target arrived in a
    [targetChange] message: in every history of a new [WatchStream], the
    [resumeToken] of each registered target is absent or is one of the
    tokens the messages of the history carried. *)
Theorem resumeTokens_come_from_messages (projectId : string)
  (history : list (Faults * Step)) :
  all_targets
    (fun s => forall t, _resumeToken s = Some t ->
                        In t (tokens_received history))
    (this (run history (World_new projectId))).
Proof.
  apply (run_tokens history (World_new projectId) []). constructor.
Qed.

Lemma step_keys (faults : Faults) (l : Step) (w : World) :
  exists ext,
    JsMap.keys (_targets (this (step faults l w)))
    = JsMap.keys (_targets (this w)) ++ ext.
Proof.
  destruct (step_registry_cases faults l w)
    as [[Ht _]|[(id & c & k & v & h & _ & _ & _ & _ & Ht & _)
       |[(id & c & k & v & h & _ & _ & _ & Ht & _)
        |(h & msg & -> & Ht & _)]]].
  - exists []. rewrite Ht, app_nil_r. reflexivity.
  - exists [id]. rewrite Ht. unfold JsMap.keys. rewrite map_app. reflexivity.
  - exists []. rewrite Ht, app_nil_r. reflexivity.
  - exists []. rewrite Ht, app_nil_r.
    destruct (only_targets_onMessageReceived msg (this w)) as (m & -> & Hk).
    exact Hk.
Qed.

Lemma run_keys (history : list (Faults * Step)) :
  forall w : World,
  exists ext,
    JsMap.keys (_targets (this (run history w)))
    = JsMap.keys (_targets (this w)) ++ ext.
Proof.
  induction history as [|[faults l] history IH]; intros w; cbn [run].
  - exists []. rewrite app_nil_r. reflexivity.
  - destruct (IH (step faults l w)) as [ext2 H2].
    destruct (step_keys faults l w) as [ext1 H1].
    exists (ext1 ++ ext2). rewrite H2, H1, app_assoc. reflexivity.
Qed.

Lemma has_in_keys {V} (m : JsMap.t V) (k : Z) :
  JsMap.has m k = true <-> In k (JsMap.keys m).
Proof.
  unfold JsMap.has. destruct (JsMap.get m k) eqn:Hg.
  - split; [intros _; eapply get_in_keys, Hg | reflexivity].
  - apply get_none_iff in Hg. split; [discriminate | contradiction].
Qed.

(** X5: the registry only grows.  Whatever happens to a [WatchStream]
    (calls, callbacks, [REMOVE] changes, [close()], faults), the identifiers
    registered so far stay registered, in their order; new ones are appended
    after them. *)
Theorem registry_only_grows (history : list (Faults * Step)) (w : World) :
  (exists ext,
      JsMap.keys (_targets (this (run history w)))
      = JsMap.keys (_targets (this w)) ++ ext)
  /\ (forall id,
        JsMap.has (_targets (this w)) id = true ->
        JsMap.has (_targets (this (run history w))) id = true).
Proof.
  destruct (run_keys history w) as [ext Hext].
  split; [eauto|].
  intros id Hid. apply has_in_keys. rewrite Hext.
  apply in_or_app. left. apply has_in_keys, Hid.
Qed.

(** ** What goes out on the transport *)

Lemma step_projectId (faults : Faults) (l : Step) (w : World) :
  _projectId (this (step faults l w)) = _projectId (this w).
Proof.
  destruct l as [| |id c k v|h|h err|h msg]; cbn [step].
  - destruct (_stream (this w)) as [h0|] eqn:Hs.
    { rewrite open_unchanged_when_guarded by (left; congruence). auto. }
    destruct (_closed (this w)) eqn:Hc.
    { rewrite open_unchanged_when_guarded by (right; exact Hc). auto. }
    destruct (open_shape faults w Hs Hc)
      as [(_ & Ht & _)|[(_ & Ht & _)|(_ & Ht & _)]]; rewrite Ht; reflexivity.
  - rewrite close_run. destruct (_closed (this w)); [reflexivity|].
    cbv zeta. destruct (_stream (this w)); reflexivity.
  - rewrite addTarget_run.
    destruct (_stream (this w)) as [h|]; [|reflexivity].
    destruct (_closed (this w)); [reflexivity|].
    destruct (JsMap.has (_targets (this w)) id); [reflexivity|].
    cbv zeta.
    match goal with |- context [faults ?call] => destruct (faults call) end;
      reflexivity.
  - unfold fire_onOpen. run_eff.
    destruct (registered cbOpen h w); reflexivity.
  - unfold fire_onClose. run_eff.
    destruct (registered cbClose h w); [|reflexivity].
    destruct err; reflexivity.
  - unfold fire_onMessage. run_eff.
    destruct (registered cbMessage h w); [|reflexivity].
    destruct (only_targets_onMessageReceived msg (this w)) as (m & Hm & _).
    destruct (_onMessageReceived msg (this w)) as [o' r].
    cbn [fst] in *. subst o'. reflexivity.
Qed.

Lemma sent_targets_app (cs cs' : list TransportCall) :
  sent_targets (cs ++ cs') = sent_targets cs ++ sent_targets cs'.
Proof.
  induction cs as [|c cs IH]; cbn; auto. destruct c; cbn; congruence.
Qed.

Lemma sent_targets_in (cs : list TransportCall) (id : Z) :
  In id (sent_targets cs)
  <-> exists h msg, In (StreamSend h msg) cs /\ targetId (addTarget_ msg) = id.
Proof.
  induction cs as [|c cs IH].
  - cbn. split; [intros [] | intros (h & msg & [] & _)].
  - assert (Hother : (forall h msg, c <> StreamSend h msg) ->
                     sent_targets (c :: cs) = sent_targets cs).
    { intros Hne. destruct c; try reflexivity. destruct (Hne h msg eq_refl). }
    destruct c as [n|h0|h0|h0|h0 msg0|h0];
      try (rewrite Hother by discriminate; rewrite IH; split;
           [intros (h' & m & Hin & Heq); exists h', m; split;
            [right; exact Hin | exact Heq]
           |intros (h' & m & [Hc|Hin] & Heq);
            [discriminate Hc | exists h', m; split; assumption]]).
    cbn [sent_targets In]. rewrite IH. split.
    + intros [Heq|(h' & m & Hin & Heq)].
      * exists h0, msg0. split; [left; reflexivity | exact Heq].
      * exists h', m. split; [right; exact Hin | exact Heq].
    + intros (h' & m & [Hc|Hin] & Heq).
      * inversion Hc; subst. left. reflexivity.
      * right. exists h', m. split; assumption.
Qed.

Lemma step_calls (faults : Faults) (l : Step) (w : World) :
  exists cs, calls (step faults l w) = calls w ++ cs.
Proof.
  destruct l as [| |id c k v|h|h err|h msg]; cbn [step].
  - destruct (open_calls faults w) as (cs & Hcs & _). eauto.
  - rewrite close_run. destruct (_closed (this w));
      [exists []; cbn; rewrite app_nil_r; reflexivity|].
    cbv zeta. destruct (_stream (this w)); cbn; eauto.
    exists []. rewrite app_nil_r. reflexivity.
  - rewrite addTarget_run.
    destruct (_stream (this w)) as [h|];
      [|exists []; cbn; rewrite app_nil_r; reflexivity].
    destruct (_closed (this w));
      [exists []; cbn; rewrite app_nil_r; reflexivity|].
    destruct (JsMap.has (_targets (this w)) id);
      [exists []; cbn; rewrite app_nil_r; reflexivity|].
    cbv zeta.
    match goal with |- context [faults ?call] => destruct (faults call) end;
      cbn; eauto.
  - exists []. rewrite app_nil_r.
    unfold fire_onOpen. run_eff. destruct (registered cbOpen h w); reflexivity.
  - exists []. rewrite app_nil_r.
    unfold fire_onClose. run_eff.
    destruct (registered cbClose h w); [|reflexivity].
    destruct err; reflexivity.
  - exists []. rewrite app_nil_r.
    unfold fire_onMessage. run_eff.
    destruct (registered cbMessage h w); [|reflexivity].
    destruct (_onMessageReceived msg (this w)). reflexivity.
Qed.

(** The facts about the log of calls that every step keeps. *)
Lemma step_sends (projectId : string) (faults : Faults) (l : Step)
  (w : World) :
  (_projectId (this w) = projectId
   /\ (forall h msg,
         In (StreamSend h msg) (calls w) ->
         _stream (this w) = Some h
         /\ exists id c k v, msg = addTarget_message projectId id c k v)
   /\ (forall id,
         In id (JsMap.keys (_targets (this w))) ->
         In id (sent_targets (calls w)))) ->
  (_projectId (this (step faults l w)) = projectId
   /\ (forall h msg,
         In (StreamSend h msg) (calls (step faults l w)) ->
         _stream (this (step faults l w)) = Some h
         /\ exists id c k v, msg = addTarget_message projectId id c k v)
   /\ (forall id,
         In id (JsMap.keys (_targets (this (step faults l w)))) ->
         In id (sent_targets (calls (step faults l w))))).
Proof.
  intros (Hp & Hsent & Hreg).
  split; [rewrite step_projectId; exact Hp|].
  destruct (step_registry_cases faults l w)
    as [[Ht Hcs]|[(id & c & k & v & h & _ & Hs & _ & _ & Ht & Hcs)
       |[(id & c & k & v & h & _ & Hs & _ & Ht & Hcs)
        |(h & msg & Hl & Ht & Hcs)]]].
  - split.
    + intros h msg Hin. destruct (Hsent h msg (Hcs h msg Hin)) as [Hs Hm].
      split; [apply step_stream_kept, Hs | exact Hm].
    + intros id Hin. rewrite Ht in Hin.
      apply sent_targets_in.
      destruct (proj1 (sent_targets_in _ _) (Hreg id Hin))
        as (h & msg & Hin' & E).
      exists h, msg. split; [|exact E].
      destruct (step_calls faults l w) as [cs ->].
      apply in_or_app. left. exact Hin'.
  - split.
    + intros h' msg Hin. rewrite Hcs in Hin. apply in_app_or in Hin.
      destruct Hin as [Hin|[[= <- <-]|[]]].
      * destruct (Hsent h' msg Hin) as [Hs' Hm].
        split; [apply step_stream_kept, Hs' | exact Hm].
      * split; [apply step_stream_kept, Hs|]. rewrite Hp. eauto.
    + intros id' Hin. rewrite Ht in Hin. rewrite Hcs, sent_targets_app.
      unfold JsMap.keys in Hin. rewrite map_app in Hin.
      apply in_app_or in Hin. apply in_or_app.
      destruct Hin as [Hin|Hin]; [left; apply Hreg, Hin | right; exact Hin].
  - split.
    + intros h' msg Hin. rewrite Hcs in Hin. apply in_app_or in Hin.
      destruct Hin as [Hin|[[= <- <-]|[]]].
      * destruct (Hsent h' msg Hin) as [Hs' Hm].
        split; [apply step_stream_kept, Hs' | exact Hm].
      * split; [apply step_stream_kept, Hs|]. rewrite Hp. eauto.
    + intros id' Hin. rewrite Ht in Hin. rewrite Hcs, sent_targets_app.
      apply in_or_app. left. apply Hreg, Hin.
  - split.
    + intros h' msg' Hin. rewrite Hcs in Hin.
      destruct (Hsent h' msg' Hin) as [Hs' Hm].
      split; [apply step_stream_kept, Hs' | exact Hm].
    + intros id Hin. rewrite Hcs. apply Hreg.
      rewrite Ht in Hin.
      destruct (only_targets_onMessageReceived msg (this w)) as (m & Hm & Hk).
      rewrite Hm in Hin. cbn [_targets set_targets] in Hin.
      rewrite Hk in Hin. exact Hin.
Qed.

(** X6: everything sent is an add-target message of this [WatchStream]: in
    every history of a new [WatchStream], each message sent went out on the
    stream that is installed and is the message [addTarget] builds for the
    project of the constructor; and each registered identifier had its
    message sent. *)
Theorem sends_are_addTarget_messages (projectId : string)
  (history : list (Faults * Step)) :
  (forall h msg,
      In (StreamSend h msg) (calls (run history (World_new projectId))) ->
      _stream (this (run history (World_new projectId))) = Some h
      /\ exists id c k v, msg = addTarget_message projectId id c k v)
  /\ (forall id,
        JsMap.has (_targets (this (run history (World_new projectId)))) id
        = true ->
        In id (sent_targets (calls (run history (World_new projectId))))).
Proof.
  assert (H : forall w,
             (_projectId (this w) = projectId
              /\ (forall h msg,
                    In (StreamSend h msg) (calls w) ->
                    _stream (this w) = Some h
                    /\ exists id c k v,
                        msg = addTarget_message projectId id c k v)
              /\ (forall id,
                    In id (JsMap.keys (_targets (this w))) ->
                    In id (sent_targets (calls w)))) ->
             (_projectId (this (run history w)) = projectId
              /\ (forall h msg,
                    In (StreamSend h msg) (calls (run history w)) ->
                    _stream (this (run history w)) = Some h
                    /\ exists id c k v,
                        msg = addTarget_message projectId id c k v)
              /\ (forall id,
                    In id (JsMap.keys (_targets (this (run history w)))) ->
                    In id (sent_targets (calls (run history w)))))).
  { induction history as [|[faults l] history IH]; intros w Hw; cbn [run].
    - exact Hw.
    - apply IH, step_sends, Hw. }
  destruct (H (World_new projectId)) as (_ & Hsent & Hreg).
  { cbn. repeat split; intros; contradiction. }
  split; [exact Hsent|].
  intros id Hid. apply Hreg, has_in_keys, Hid.
Qed.

(** ** Every stream obtained is released exactly once *)

Lemma in_use_frame (w w' : World) (h : Handle) :
  _stream (this w') = _stream (this w) ->
  _closed (this w') = _closed (this w) ->
  in_use w' h = in_use w h.
Proof. unfold in_use. intros -> ->. reflexivity. Qed.

Lemma step_released (faults : Faults) (l : Step) (w : World) :
  channel_invariant w ->
  (forall h, (h < List.length (streams w))%nat -> in_use w h = false ->
             releases h (calls w) = 1%nat) ->
  forall h,
    (h < List.length (streams (step faults l w)))%nat ->
    in_use (step faults l w) h = false ->
    releases h (calls (step faults l w)) = 1%nat.
Proof.
  intros Hinv Hex.
  destruct l as [| |id c k v|h'|h' err|h' msg];
    try (use_frame; destruct Hframe as (Hs & Hc & Hlen & Hcs);
         intros h Hh Hu; rewrite Hcs; rewrite Hlen in Hh;
         rewrite (in_use_frame _ _ _ Hs Hc) in Hu; auto).
  - (* open *)
    cbn [step].
    destruct (_stream (this w)) as [h0|] eqn:Hs.
    { rewrite open_unchanged_when_guarded by (left; congruence). exact Hex. }
    destruct (_closed (this w)) eqn:Hc.
    { rewrite open_unchanged_when_guarded by (right; exact Hc). exact Hex. }
    assert (Hidle : forall h, in_use w h = false)
      by (intros h; unfold in_use; rewrite Hs; reflexivity).
    destruct Hinv as [Hknown Hheld Hunknown Honce].
    destruct (open_shape faults w Hs Hc)
      as [(_ & Ht & Hst & Hcs)
         |[(_ & Ht & Hlen & cs & Hcs & Hfree)
          |(_ & Ht & Hlen & cs & Hcs & Hfree)]];
      intros h Hh Hu.
    + rewrite Hst in Hh. rewrite Hcs, releases_app. cbn.
      rewrite Nat.add_0_r. auto.
    + rewrite Hlen in Hh. rewrite Hcs, !releases_app, Hfree, releases_single.
      destruct (Nat.eqb_spec (List.length (streams w)) h) as [<-|Hne].
      * rewrite Hunknown by lia. reflexivity.
      * rewrite Hex by (auto; lia). reflexivity.
    + rewrite Hlen in Hh. rewrite Hcs, releases_app, Hfree, Nat.add_0_r.
      unfold in_use in Hu. rewrite Ht in Hu.
      cbn [_stream _closed set_stream] in Hu. rewrite Hc in Hu.
      cbn [negb] in Hu. rewrite Bool.andb_true_r in Hu.
      apply Nat.eqb_neq in Hu. apply Hex; [lia | apply Hidle].
  - (* close *)
    cbn [step]. rewrite close_run.
    destruct (_closed (this w)) eqn:Hc; [exact Hex|].
    cbv zeta. destruct (_stream (this w)) as [h0|] eqn:Hs;
      destruct Hinv as [Hknown Hheld Hunknown Honce];
      cbn [fst streams calls this log_call set_this]; intros h Hh _.
    + rewrite releases_app, releases_single.
      destruct (Nat.eqb_spec h0 h) as [<-|Hne].
      * rewrite (Hheld h0 Hs Hc). reflexivity.
      * rewrite Nat.add_0_r. apply Hex; [exact Hh|].
        unfold in_use. rewrite Hs.
        apply Nat.eqb_neq in Hne. rewrite Hne. reflexivity.
    + apply Hex; [exact Hh|]. unfold in_use. rewrite Hs. reflexivity.
Qed.

(** X7: no stream leaks and none is released twice.  In every history of a
    new [WatchStream], [close()] was called exactly once on each stream the
    connection handed out, except on the installed stream of a [WatchStream]
    that is not closed, on which it was not called. *)
Theorem streams_released_exactly_once (projectId : string)
  (history : list (Faults * Step)) (h : Handle) :
  (h < List.length (streams (run history (World_new projectId))))%nat ->
  releases h (calls (run history (World_new projectId)))
  = if in_use (run history (World_new projectId)) h then O else 1%nat.
Proof.
  assert (H : forall w,
             channel_invariant w ->
             (forall h, (h < List.length (streams w))%nat ->
                        in_use w h = false -> releases h (calls w) = 1%nat) ->
             forall h, (h < List.length (streams (run history w)))%nat ->
                       in_use (run history w) h = false ->
                       releases h (calls (run history w)) = 1%nat).
  { induction history as [|[faults l] history IH]; intros w Hinv Hex;
      cbn [run].
    - exact Hex.
    - apply IH; [apply step_invariant, Hinv | apply step_released; auto]. }
  intros Hh.
  destruct (in_use (run history (World_new projectId)) h) eqn:Hu.
  - unfold in_use in Hu.
    destruct (_stream (this (run history (World_new projectId))))
      as [h0|] eqn:Hs; [|discriminate].
    apply Bool.andb_true_iff in Hu. destruct Hu as [Heq Hc].
    apply Nat.eqb_eq in Heq. subst h0.
    apply (installed_held _ (run_invariant history _
                               (new_world_invariant projectId)));
      [exact Hs|].
    destruct (_closed _); [discriminate|reflexivity].
  - apply (H (World_new projectId)); auto.
    + apply new_world_invariant.
    + cbn. intros h0 Hlt. lia.
Qed.

Lemma streams_released_exactly_once_witness :
  let faulty : Faults :=
    fun c => match c with
             | StreamOnClose O => Some (TransportError "onClose")
             | _ => None
             end in
  let w := run [(faulty, CallOpen); (faulty, CallOpen); (faulty, CallClose)]
             (World_new "p") in
  releases O (calls w) = 1%nat /\ releases 1%nat (calls w) = 1%nat.
Proof.
  intros faulty w. split.
  - apply (streams_released_exactly_once "p"
             [(faulty, CallOpen); (faulty, CallOpen); (faulty, CallClose)] O).
    cbn. lia.
  - apply (streams_released_exactly_once "p"
             [(faulty, CallOpen); (faulty, CallOpen); (faulty, CallClose)]
             1%nat).
    cbn. lia.
Defined.

(** ** After [close()] *)

Lemma step_closed_quiet (faults : Faults) (l : Step) (w : World) :
  _closed (this w) = true ->
  calls (step faults l w) = calls w.
Proof.
  intros Hc. destruct l as [| |id c k v|h|h err|h msg]; cbn [step].
  - rewrite open_unchanged_when_guarded by (right; exact Hc). reflexivity.
  - rewrite close_run, Hc. reflexivity.
  - rewrite addTarget_run, Hc. destruct (_stream (this w)); reflexivity.
  - unfold fire_onOpen. run_eff. destruct (registered cbOpen h w); reflexivity.
  - unfold fire_onClose. run_eff.
    destruct (registered cbClose h w); [|reflexivity].
    destruct err; reflexivity.
  - unfold fire_onMessage. run_eff.
    destruct (registered cbMessage h w); [|reflexivity].
    destruct (_onMessageReceived msg (this w)). reflexivity.
Qed.

(** X8: a closed [WatchStream] is silent.  Once [_closed] is set, no call,
    callback or message makes it call the transport again: nothing is
    acquired, registered, sent or released any more, and [addTarget] throws
    without a change. *)
Theorem closed_stream_is_silent (history : list (Faults * Step))
  (w : World) :
  _closed (this w) = true ->
  calls (run history w) = calls w
  /\ forall faults id c k v,
       exists e,
         addTarget faults id c k v (run history w)
         = (run history w, inl (WatchError e)).
Proof.
  intros Hc. split.
  - revert w Hc.
    induction history as [|[faults l] history IH]; intros w Hc; cbn [run].
    + reflexivity.
    + rewrite IH by (apply step_closed_kept, Hc).
      apply step_closed_quiet, Hc.
  - intros faults id c k v. rewrite addTarget_run.
    rewrite (run_closed_kept history w Hc).
    destruct (_stream (this (run history w))); eauto.
Qed.

Lemma closed_stream_is_silent_witness :
  let w := fst (close no_faults (fst (open no_faults (World_new "p")))) in
  let history :=
    [(no_faults, CallAddTarget 1 "c" "k" "v"); (no_faults, CallOpen);
     (no_faults, FireOnClose O None); (no_faults, CallClose)] in
  calls (run history w) = calls w.
Proof.
  intros w history.
  exact (proj1 (closed_stream_is_silent history w eq_refl)).
Defined.

(** ** Dispatch seen from the transport *)

(** X9: dispatching a message touches nothing but registered targets.
    Whatever the message, and also when the dispatch throws, the callback
    makes no call on the transport and leaves the streams, their callbacks
    and promises, [_stream], [_closed], [_closedDeferred] and the project as
    they are; in the registry only the objects change, never the
    identifiers or their order. *)
Theorem dispatch_writes_targets_only (h : Handle) (msg : ListenResponse)
  (w : World) :
  exists m,
    fst (fire_onMessage h msg w) = set_this (set_targets m (this w)) w
    /\ JsMap.keys m = JsMap.keys (_targets (this w)).
Proof.
  unfold fire_onMessage. run_eff.
  destruct (registered cbMessage h w).
  - destruct (only_targets_onMessageReceived msg (this w)) as (m & Hm & Hk).
    exists m. destruct (_onMessageReceived msg (this w)) as [o' r].
    cbn [fst] in *. subst o'. split; [reflexivity | exact Hk].
  - exists (_targets (this w)). cbn [fst].
    rewrite set_targets_same. destruct w; split; reflexivity.
Qed.

(** *** The dispatcher reads the registry only *)

Section Commutes.

Variable f : WatchStream -> WatchStream.
Hypothesis f_targets : forall o, _targets (f o) = _targets o.
Hypothesis f_set_targets :
  forall m o, f (set_targets m o) = set_targets m (f o).

Lemma commutes_bind {A B} (c : Eff.t WatchStream A)
  (k : A -> Eff.t WatchStream B) :
  (forall o, c (f o) = (f (fst (c o)), snd (c o))) ->
  (forall a o, k a (f o) = (f (fst (k a o)), snd (k a o))) ->
  forall o, Eff.bind c k (f o)
            = (f (fst (Eff.bind c k o)), snd (Eff.bind c k o)).
Proof.
  intros Hc Hk o. unfold Eff.bind. rewrite Hc.
  destruct (c o) as [o' [e|a]]; cbn [fst snd]; [reflexivity|].
  rewrite Hk. reflexivity.
Qed.

Lemma commutes_for_of {X} (xs : list X)
  (body : X -> Eff.t WatchStream unit) :
  (forall x o, body x (f o) = (f (fst (body x o)), snd (body x o))) ->
  forall o, Eff.for_of xs body (f o)
            = (f (fst (Eff.for_of xs body o)), snd (Eff.for_of xs body o)).
Proof.
  intros Hb. induction xs as [|x xs IH]; cbn [Eff.for_of].
  - reflexivity.
  - apply commutes_bind; auto.
Qed.

Lemma commutes_map_from {X Y} (xs : list X)
  (g : X -> Eff.t WatchStream Y) :
  (forall x o, g x (f o) = (f (fst (g x o)), snd (g x o))) ->
  forall o, Eff.map_from xs g (f o)
            = (f (fst (Eff.map_from xs g o)), snd (Eff.map_from xs g o)).
Proof.
  intros Hg. induction xs as [|x xs IH]; cbn [Eff.map_from].
  - reflexivity.
  - apply commutes_bind; [apply Hg|]. intros y.
    apply commutes_bind; [exact IH|]. reflexivity.
Qed.

Lemma commutes_invoke (ref : Z) (method : Eff.t TargetState unit) :
  forall o, invoke ref method (f o)
            = (f (fst (invoke ref method o)), snd (invoke ref method o)).
Proof.
  intros o. unfold invoke. rewrite f_targets.
  destruct (JsMap.get (_targets o) ref) as [s|]; [|reflexivity].
  destruct (method s) as [s' r]. cbn [fst snd]. rewrite f_set_targets.
  reflexivity.
Qed.

Lemma commutes_onMessageReceived (msg : ListenResponse) :
  forall o, _onMessageReceived msg (f o)
            = (f (fst (_onMessageReceived msg o)),
               snd (_onMessageReceived msg o)).
Proof.
  unfold _onMessageReceived.
  destruct (targetChange msg) as [tc|].
  - unfold _onTargetChange. apply commutes_bind.
    + unfold _targetStatesForTargetChange. apply commutes_bind.
      * apply commutes_map_from. intros id o.
        rewrite !targetState_for_run, f_targets.
        destruct (JsMap.get (_targets o) id); reflexivity.
      * intros l o. destruct (0 <? List.length l)%nat; [reflexivity|].
        unfold Eff.bind, Eff.get, Eff.ret. cbn. rewrite f_targets.
        reflexivity.
    + intros refs. apply commutes_for_of. intros ref o.
      rewrite switch_run. destruct (event_of tc); [|reflexivity].
      apply commutes_invoke.
  - destruct (documentChange msg); [reflexivity|].
    destruct (documentRemove msg); [reflexivity|].
    destruct (documentDelete msg); [reflexivity|].
    destruct (filter msg); reflexivity.
Qed.

End Commutes.

Lemma fire_onMessage_run (h : Handle) (msg : ListenResponse) (w : World) :
  fire_onMessage h msg w =
    if registered cbMessage h w
    then (set_this (fst (_onMessageReceived msg (this w))) w,
          snd (_onMessageReceived msg (this w)))
    else (w, inr tt).
Proof.
  unfold fire_onMessage. run_eff.
  destruct (registered cbMessage h w); [|reflexivity].
  destruct (_onMessageReceived msg (this w)). reflexivity.
Qed.

(** X10: [close()] does not stop the dispatch.  A message that the transport
    delivers after [close()] is dispatched as before: it throws or not, and
    changes the registered targets, exactly as it would have done had
    [close()] not been called. *)
Theorem close_does_not_stop_dispatch (faults : Faults) (w : World)
  (h : Handle) (msg : ListenResponse) :
  snd (fire_onMessage h msg (fst (close faults w)))
  = snd (fire_onMessage h msg w)
  /\ _targets (this (fst (fire_onMessage h msg (fst (close faults w)))))
     = _targets (this (fst (fire_onMessage h msg w))).
Proof.
  rewrite close_run.
  destruct (_closed (this w)) eqn:Hc; [split; reflexivity|].
  cbv zeta.
  assert (Hgo : forall w',
             streams w' = streams w ->
             this w' = set_closed true (this w) ->
             snd (fire_onMessage h msg w') = snd (fire_onMessage h msg w)
             /\ _targets (this (fst (fire_onMessage h msg w')))
                = _targets (this (fst (fire_onMessage h msg w)))).
  { intros w' Hst Ht. rewrite !fire_onMessage_run.
    unfold registered. rewrite Hst, Ht.
    destruct (nth_error (streams w) h) as [s|];
      [|cbn [fst snd]; rewrite Ht; split; reflexivity].
    destruct (cbMessage s);
      [|cbn [fst snd]; rewrite Ht; split; reflexivity].
    rewrite (commutes_onMessageReceived (set_closed true)) by reflexivity.
    destruct (_onMessageReceived msg (this w)) as [o' r].
    split; reflexivity. }
  destruct (_stream (this w)); cbn [fst]; apply Hgo; reflexivity.
Qed.

(** ** Promises settle once *)

Lemma nth_error_update_nth_other {A} (n h : nat) (f : A -> A) (l : list A) :
  n <> h -> nth_error (update_nth n f l) h = nth_error l h.
Proof.
  revert n h. induction l as [|x l IH]; intros [|n] [|h] Hne; cbn; auto;
    try congruence.
Qed.

Lemma nth_error_update_nth_same {A} (n : nat) (f : A -> A) (l : list A) :
  nth_error (update_nth n f l) n = option_map f (nth_error l n).
Proof.
  revert n. induction l as [|x l IH]; intros [|n]; cbn; auto.
Qed.

Lemma open_streams_old (faults : Faults) (w : World) (h : Handle) :
  (h < List.length (streams w))%nat ->
  nth_error (streams (fst (open faults w))) h = nth_error (streams w) h.
Proof.
  intros Hh. unfold open. run_eff.
  destruct (is_some (_stream (this w))); [reflexivity|].
  destruct (_closed (this w)); [reflexivity|].
  run_eff.
  repeat match goal with
         | |- context [faults ?call] => destruct (faults call); run_eff
         end;
    cbn [streams log_call set_streams set_this fst];
    rewrite ?nth_error_update_nth_other by lia;
    rewrite ?nth_error_app1 by exact Hh; reflexivity.
Qed.

Lemma settled_resolve (d : Deferred) : d <> Pending -> resolve d = d.
Proof. destruct d; [contradiction | reflexivity | reflexivity]. Qed.

Lemma settled_reject (e : Error) (d : Deferred) :
  d <> Pending -> reject e d = d.
Proof. destruct d; [contradiction | reflexivity | reflexivity]. Qed.

Lemma step_settled (faults : Faults) (l : Step) (w : World)
  (d : DeferredRef) :
  match d with
  | OpenDeferred h => (h < List.length (streams w))%nat
  | ClosedDeferred => True
  end ->
  deferred_of w d <> Pending ->
  deferred_of (step faults l w) d = deferred_of w d.
Proof.
  intros Hvalid Hset.
  destruct l as [| |id c k v|h'|h' err|h' msg]; cbn [step].
  - destruct d as [h|]; cbn [deferred_of].
    + rewrite open_streams_old by exact Hvalid. reflexivity.
    + destruct (_stream (this w)) as [h0|] eqn:Hs.
      { rewrite open_unchanged_when_guarded by (left; congruence). auto. }
      destruct (_closed (this w)) eqn:Hc.
      { rewrite open_unchanged_when_guarded by (right; exact Hc). auto. }
      destruct (open_shape faults w Hs Hc)
        as [(_ & Ht & _)|[(_ & Ht & _)|(_ & Ht & _)]]; rewrite Ht; reflexivity.
  - rewrite close_run. destruct (_closed (this w)); [reflexivity|].
    cbv zeta. destruct (_stream (this w)); destruct d; reflexivity.
  - rewrite addTarget_run.
    destruct (_stream (this w)) as [h|]; [|reflexivity].
    destruct (_closed (this w)); [reflexivity|].
    destruct (JsMap.has (_targets (this w)) id); [reflexivity|].
    cbv zeta.
    match goal with |- context [faults ?call] => destruct (faults call) end;
      destruct d; reflexivity.
  - unfold fire_onOpen. run_eff.
    destruct (registered cbOpen h' w); [|reflexivity].
    destruct d as [h|]; cbn [deferred_of fst streams set_streams this];
      [|reflexivity].
    destruct (Nat.eq_dec h' h) as [->|Hne].
    + rewrite nth_error_update_nth_same.
      cbn [deferred_of] in Hset.
      destruct (nth_error (streams w) h) as [s|]; [|reflexivity].
      cbn. apply settled_resolve, Hset.
    + rewrite nth_error_update_nth_other by exact Hne. reflexivity.
  - unfold fire_onClose. run_eff.
    destruct (registered cbClose h' w); [|reflexivity].
    destruct err as [e|]; run_eff;
      (destruct d as [h|];
       cbn [deferred_of fst streams set_streams set_this this
              _closedDeferred set_closedDeferred];
       [destruct (Nat.eq_dec h' h) as [->|Hne];
        [rewrite nth_error_update_nth_same;
         cbn [deferred_of] in Hset;
         destruct (nth_error (streams w) h) as [s|]; [|reflexivity];
         cbn; auto using settled_resolve, settled_reject
        |rewrite nth_error_update_nth_other by exact Hne; reflexivity]
       |cbn [deferred_of] in Hset;
        auto using settled_resolve, settled_reject]).
  - rewrite fire_onMessage_run.
    destruct (registered cbMessage h' w); [|reflexivity].
    destruct (only_targets_onMessageReceived msg (this w)) as (m & Hm & _).
    cbn [fst]. rewrite Hm. destruct d; reflexivity.
Qed.

Lemma step_streams_length (faults : Faults) (l : Step) (w : World) :
  (List.length (streams w) <= List.length (streams (step faults l w)))%nat.
Proof.
  destruct l as [| |id c k v|h'|h' err|h' msg];
    try (use_frame; destruct Hframe as (_ & _ & -> & _); lia); cbn [step].
  - destruct (_stream (this w)) as [h0|] eqn:Hs.
    { rewrite open_unchanged_when_guarded by (left; congruence). auto. }
    destruct (_closed (this w)) eqn:Hc.
    { rewrite open_unchanged_when_guarded by (right; exact Hc). auto. }
    destruct (open_shape faults w Hs Hc)
      as [(_ & _ & Hst & _)|[(_ & _ & Hlen & _)|(_ & _ & Hlen & _)]].
    + rewrite Hst. lia.
    + rewrite Hlen. lia.
    + rewrite Hlen. lia.
  - rewrite close_run. destruct (_closed (this w)); [cbn; lia|].
    cbv zeta. destruct (_stream (this w)); cbn; lia.
Qed.

Lemma open_installed_callbacks (faults : Faults) (w w' : World) (a : Async) :
  open faults w = (w', inr a) ->
  a = Awaits (OpenDeferred (List.length (streams w)))
  /\ nth_error (streams w') (List.length (streams w))
     = Some (mkStreamCallbacks Pending true true true).
Proof.
  assert (Hnew : forall (l : list StreamCallbacks) x,
             nth_error (l ++ [x]) (List.length l) = Some x).
  { intros l x. rewrite nth_error_app2 by lia.
    rewrite Nat.sub_diag. reflexivity. }
  unfold open. run_eff.
  destruct (is_some (_stream (this w))); [discriminate|].
  destruct (_closed (this w)); [discriminate|].
  run_eff.
  repeat match goal with
         | |- context [faults ?call] => destruct (faults call); run_eff
         end; try discriminate.
  intros [= <- <-]. split; [reflexivity|].
  cbn [streams log_call set_streams set_this fst].
  rewrite !nth_error_update_nth_same, Hnew. reflexivity.
Qed.

(** X11: the promise of [open()] and the close-completion promise settle
    once.  When [open()] has installed its stream the promise it returns is
    pending and all three callbacks are registered; the first [onOpen] or
    [onClose] the transport fires on that stream decides it ([onOpen] and a
    clean [onClose] resolve it, [onClose] with an error rejects it with that
    error); and a promise that is settled keeps its outcome through
    whatever happens afterwards. *)
Theorem promises_settle_once :
  (forall faults w w' a,
      open faults w = (w', inr a) ->
      let h := List.length (streams w) in
      a = Awaits (OpenDeferred h)
      /\ outcome w' a = Pending
      /\ registered cbOpen h w' = true
      /\ registered cbClose h w' = true
      /\ registered cbMessage h w' = true
      /\ outcome (fst (fire_onOpen h w')) a = Resolved
      /\ outcome (fst (fire_onClose h None w')) a = Resolved
      /\ forall e, outcome (fst (fire_onClose h (Some e) w')) a = Rejected e)
  /\ (forall history w d,
        match d with
        | OpenDeferred h => (h < List.length (streams w))%nat
        | ClosedDeferred => True
        end ->
        deferred_of w d <> Pending ->
        deferred_of (run history w) d = deferred_of w d).
Proof.
  split.
  - intros faults w w' a Hopen h.
    destruct (open_installed_callbacks faults w w' a Hopen) as [-> Hnth].
    fold h in Hnth |- *.
    unfold outcome, deferred_of, registered, fire_onOpen, fire_onClose.
    run_eff. unfold registered. rewrite Hnth. cbn [cbOpen cbClose cbMessage].
    run_eff. cbn [streams set_streams set_this this fst deferred].
    rewrite !nth_error_update_nth_same, Hnth. cbn.
    repeat split.
    intros e. rewrite nth_error_update_nth_same, Hnth. reflexivity.
  - induction history as [|[faults l] history IH]; intros w d Hvalid Hset;
      cbn [run].
    + reflexivity.
    + rewrite IH.
      * apply step_settled; assumption.
      * destruct d as [h|]; [|exact I].
        pose proof (step_streams_length faults l w). lia.
      * rewrite step_settled by assumption. exact Hset.
Qed.

Lemma promises_settle_once_witness :
  let w := fst (fire_onClose O (Some (TransportError "reset"))
                  (fst (open no_faults (World_new "p")))) in
  let history := [(no_faults, FireOnOpen O); (no_faults, FireOnClose O None);
                  (no_faults, CallClose)] in
  deferred_of (run history w) (OpenDeferred O)
  = Rejected (TransportError "reset")
  /\ deferred_of (run history w) ClosedDeferred
     = Rejected (TransportError "reset").
Proof.
  intros w history.
  destruct promises_settle_once as [_ Hkeep].
  split.
  - rewrite (Hkeep history w (OpenDeferred O)); [reflexivity| |discriminate].
    cbn. lia.
  - rewrite (Hkeep history w ClosedDeferred); [reflexivity|exact I|discriminate].
Defined.

(** ** More on the dispatch of [targetChange] *)

Lemma unrecognized_type_throws_witness :
  let o := set_targets [(1, TargetState_new)] (WatchStream_new "p") in
  exists e,
    _onTargetChange (mkTargetChange None (Some "BOGUS") None) o
    = (o, inl (WatchError e)).
Proof.
  intros o.
  apply (unrecognized_type_throws o
           (mkTargetChange None (Some "BOGUS") None)).
  - intros [H|[H|[H|[H|H]]]]; discriminate.
  - right. discriminate.
Defined.

(** X13: document changes, removes, deletes, existence filters and empty
    messages are ignored: delivering a message without a [targetChange]
    never throws and leaves the whole state as it is; a message with a
    [targetChange] is dispatched on it alone, whatever else it carries. *)
Theorem other_messages_are_ignored (faults : Faults) (h : Handle)
  (msg : ListenResponse) (w : World) :
  (targetChange msg = None ->
   step faults (FireOnMessage h msg) w = w
   /\ snd (fire_onMessage h msg w) = inr tt)
  /\ (forall tc,
        targetChange msg = Some tc ->
        _onMessageReceived msg (this w) = _onTargetChange tc (this w)).
Proof.
  split.
  - intros Hnone. cbn [step]. rewrite fire_onMessage_run.
    assert (Hrun : _onMessageReceived msg (this w) = (this w, inr tt)).
    { unfold _onMessageReceived. rewrite Hnone.
      destruct (documentChange msg); [reflexivity|].
      destruct (documentRemove msg); [reflexivity|].
      destruct (documentDelete msg); [reflexivity|].
      destruct (filter msg); reflexivity. }
    rewrite Hrun. destruct (registered cbMessage h w); cbn [fst snd];
      destruct w; auto.
  - intros tc Htc. unfold _onMessageReceived. rewrite Htc. reflexivity.
Qed.

Lemma other_messages_are_ignored_witness :
  let w := fst (addTarget no_faults 1 "c" "k" "v"
                  (fst (open no_faults (World_new "p")))) in
  step no_faults
    (FireOnMessage O
       (mkListenResponse None None None None (Some mkExistenceFilter))) w
  = w.
Proof.
  intros w.
  exact (proj1 (proj1 (other_messages_are_ignored no_faults O
                         (mkListenResponse None None None None
                            (Some mkExistenceFilter)) w) eq_refl)).
Defined.

Lemma invoke_run (ref : Z) (method : Eff.t TargetState unit)
  (o : WatchStream) (s : TargetState) :
  JsMap.get (_targets o) ref = Some s ->
  invoke ref method o
  = (set_targets (JsMap.set (_targets o) ref (fst (method s))) o,
     snd (method s)).
Proof.
  intros Hg. unfold invoke. rewrite Hg. destruct (method s). reflexivity.
Qed.

Lemma invoke_get_other (ref k : Z) (method : Eff.t TargetState unit)
  (o : WatchStream) :
  ref <> k ->
  JsMap.get (_targets (fst (invoke ref method o))) k
  = JsMap.get (_targets o) k.
Proof.
  intros Hne. unfold invoke.
  destruct (JsMap.get (_targets o) ref) as [s|]; [|reflexivity].
  destruct (method s) as [s' r]. cbn [fst _targets set_targets].
  apply get_set_other, Hne.
Qed.

(** X14: a [targetChange] that names targets leaves every other target as
    it is, whether the dispatch throws or not. *)
Theorem named_dispatch_leaves_others (o : WatchStream) (tc : TargetChange)
  (ids : list Z) (k : Z) :
  targetIds tc = Some ids -> ids <> [] -> ~ In k ids ->
  JsMap.get (_targets (fst (_onTargetChange tc o))) k
  = JsMap.get (_targets o) k.
Proof.
  intros Hids Hne Hk. rewrite onTargetChange_run.
  pose proof (resolution_unchanged tc o) as Hsame.
  pose proof (resolution_refs tc o) as Hrefs.
  destruct (_targetStatesForTargetChange tc o) as [o' [e|refs]];
    cbn [fst snd] in *; subst o'; [reflexivity|].
  destruct (Hrefs refs eq_refl) as [_ Heq].
  rewrite (Heq ids Hids Hne).
  apply (keeps_for_of
           (fun o' => JsMap.get (_targets o') k = JsMap.get (_targets o) k));
    [|reflexivity].
  intros ref Hin o' Ho'. rewrite switch_run.
  destruct (event_of tc); [|exact Ho'].
  rewrite invoke_get_other; [exact Ho'|].
  intros ->. contradiction.
Qed.

Lemma named_dispatch_leaves_others_witness :
  let o := set_targets [(1, TargetState_new); (2, TargetState_new)]
             (WatchStream_new "p") in
  JsMap.get
    (_targets (fst (_onTargetChange
                      (mkTargetChange (Some [1]) (Some "ADD") None) o))) 2
  = Some TargetState_new.
Proof.
  intros o.
  rewrite (named_dispatch_leaves_others o
             (mkTargetChange (Some [1]) (Some "ADD") None) [1] 2 eq_refl).
  - reflexivity.
  - discriminate.
  - intros [H|[]]. discriminate.
Defined.





(** A transition that sets a flag it refuses to find set cannot run twice on
    one object: the loop throws as soon as it meets an object a second
    time, or one that has the flag already. *)
Lemma loop_flag_twice (ev : TargetEvent) (B : TargetState -> bool) :
  (forall s, B s = true -> exists e, snd (deliver ev s) = inl e) ->
  (forall s, snd (deliver ev s) = inr tt -> B (fst (deliver ev s)) = true) ->
  forall (ids : list Z) (o : WatchStream),
    (forall id, In id ids -> JsMap.get (_targets o) id <> None) ->
    (exists id s, In id ids /\ JsMap.get (_targets o) id = Some s
                  /\ B s = true)
    \/ ~ NoDup ids ->
    exists e,
      snd (Eff.for_of ids (fun ref => invoke ref (deliver ev)) o) = inl e.
Proof.
  intros Hthrow Hset.
  induction ids as [|b rest IH]; intros o Hknown Hwhy.
  - destruct Hwhy as [(id & s & [] & _)|Hdup].
    exfalso. apply Hdup. constructor.
  - cbn [Eff.for_of]. unfold Eff.bind.
    destruct (JsMap.get (_targets o) b) as [sb|] eqn:Hgb;
      [|destruct (Hknown b (or_introl eq_refl) Hgb)].
    rewrite (invoke_run b (deliver ev) o sb Hgb).
    destruct (snd (deliver ev sb)) as [e|[]] eqn:Hres;
      [exists e; reflexivity|].
    set (o1 := set_targets
                 (JsMap.set (_targets o) b (fst (deliver ev sb))) o).
    assert (Hb1 : JsMap.get (_targets o1) b = Some (fst (deliver ev sb)))
      by apply get_set_same.
    assert (Hother : forall id, b <> id ->
              JsMap.get (_targets o1) id = JsMap.get (_targets o) id)
      by (intros id Hne; apply get_set_other, Hne).
    apply IH.
    + intros id Hin. destruct (Z.eq_dec b id) as [<-|Hne].
      * rewrite Hb1. discriminate.
      * rewrite Hother by exact Hne. apply Hknown. right. exact Hin.
    + destruct Hwhy as [(id & s & [<-|Hin] & Hg & HB)|Hdup].
      * rewrite Hgb in Hg. injection Hg as <-.
        destruct (Hthrow sb HB) as [e He]. congruence.
      * left. destruct (Z.eq_dec b id) as [<-|Hne].
        -- exists b, (fst (deliver ev sb)). auto.
        -- exists id, s. rewrite Hother by exact Hne. auto.
      * destruct (in_dec Z.eq_dec b rest) as [Hin|Hnin].
        -- left. exists b, (fst (deliver ev sb)). auto.
        -- right. intros Hnd. apply Hdup. constructor; assumption.
Qed.

Lemma event_of_type (tc : TargetChange) :
  (targetChangeType tc = Some "ADD" -> event_of tc = Some Added)
  /\ (targetChangeType tc = Some "REMOVE" -> event_of tc = Some Removed).
Proof. unfold event_of. split; intros ->; reflexivity. Qed.

(** X16: a [targetChange] that lists a target twice applies the transition
    to it twice.  For [ADD] and [REMOVE] the dispatch therefore always
    throws when an identifier is repeated in the list. *)
Theorem repeated_target_fails_add_and_remove (o : WatchStream)
  (tc : TargetChange) (ids : list Z) :
  targetIds tc = Some ids -> ~ NoDup ids ->
  targetChangeType tc = Some "ADD" \/ targetChangeType tc = Some "REMOVE" ->
  exists e, snd (_onTargetChange tc o) = inl e.
Proof.
  intros Hids Hdup Hty. rewrite onTargetChange_run.
  destruct (known_or_unknown o ids) as [Hknown|Hbad].
  - rewrite (resolution_named tc o ids Hids Hknown).
    assert (Hne : ids <> []) by (intros ->; apply Hdup; constructor).
    replace (match ids with [] => JsMap.keys (_targets o) | _ :: _ => ids end)
      with ids by (destruct ids; [contradiction | reflexivity]).
    destruct Hty as [Hty|Hty].
    + rewrite (for_of_ext (switch_targetChangeType tc)
                 (fun ref => invoke ref (deliver Added)))
        by (intros; rewrite switch_run, (proj1 (event_of_type tc) Hty);
            reflexivity).
      apply (loop_flag_twice Added _added);
        [| |exact Hknown|right; exact Hdup].
      * intros s Hs. rewrite deliver_run, Hs. cbn. eauto.
      * intros s. rewrite deliver_run. destruct (_added s); [discriminate|].
        reflexivity.
    + rewrite (for_of_ext (switch_targetChangeType tc)
                 (fun ref => invoke ref (deliver Removed)))
        by (intros; rewrite switch_run, (proj2 (event_of_type tc) Hty);
            reflexivity).
      apply (loop_flag_twice Removed (fun s => negb (_added s)));
        [| |exact Hknown|right; exact Hdup].
      * intros s Hs. rewrite deliver_run.
        destruct (_added s); [discriminate | cbn; eauto].
      * intros s. rewrite deliver_run. destruct (_added s); [|discriminate].
        reflexivity.
  - destruct (resolve_unknown o ids Hbad) as (id & _ & _ & Hrun).
    rewrite resolution_run, Hids, Hrun. cbn. eauto.
Qed.

Lemma repeated_target_fails_add_and_remove_witness :
  let o := set_targets [(1, TargetState_new)] (WatchStream_new "p") in
  exists e,
    snd (_onTargetChange (mkTargetChange (Some [1; 1]) (Some "ADD") None) o)
    = inl e.
Proof.
  intros o.
  apply (repeated_target_fails_add_and_remove o
           (mkTargetChange (Some [1; 1]) (Some "ADD") None) [1; 1] eq_refl).
  - intros Hnd. inversion Hnd as [|x l Hnotin _]; subst.
    apply Hnotin. left. reflexivity.
  - left. reflexivity.
Defined.

(** X17: a target that [addTarget] has just registered waits for its
    acknowledgment: of the changes that name it alone, [ADD] is the only one
    the dispatch accepts, and it makes the target added and not current. *)
Theorem new_target_accepts_only_add (faults : Faults) (w : World)
  (id : Z) (c k v : string) (tc : TargetChange) :
  snd (addTarget faults id c k v w) = inr tt ->
  targetIds tc = Some [id] ->
  (snd (_onTargetChange tc (this (fst (addTarget faults id c k v w))))
   = inr tt
   <-> targetChangeType tc = Some "ADD")
  /\ (targetChangeType tc = Some "ADD" ->
      JsMap.get
        (_targets
           (fst (_onTargetChange tc
                   (this (fst (addTarget faults id c k v w)))))) id
      = Some (mkTargetState true false None)).
Proof.
  intros Hok Hids.
  assert (Hg : JsMap.get
                 (_targets (this (fst (addTarget faults id c k v w)))) id
               = Some TargetState_new).
  { revert Hok. rewrite addTarget_run.
    destruct (_stream (this w)) as [h|]; [|discriminate].
    destruct (_closed (this w)); [discriminate|].
    destruct (JsMap.has (_targets (this w)) id); [discriminate|].
    cbv zeta.
    match goal with |- context [faults ?call] => destruct (faults call) end;
      [discriminate|].
    intros _. apply get_set_same. }
  set (o := this (fst (addTarget faults id c k v w))) in *.
  assert (Hrun : _onTargetChange tc o
                 = match event_of tc with
                   | Some ev => invoke id (deliver ev) o
                   | None =>
                       (o, inl (WatchError
                                  (UnknownTargetChangeType
                                     (targetChangeType tc))))
                   end).
  { rewrite onTargetChange_run, (resolution_named tc o [id] Hids).
    - cbn [Eff.for_of]. unfold Eff.bind. rewrite switch_run.
      destruct (event_of tc) as [ev|]; [|reflexivity].
      destruct (invoke id (deliver ev) o) as [o' [e|[]]]; reflexivity.
    - intros id' [<-|[]]. rewrite Hg. discriminate. }
  rewrite Hrun. unfold event_of.
  destruct (targetChangeType tc) as [ty|];
    [|split; [split; discriminate | discriminate]].
  destruct (String.eqb_spec ty "ADD") as [->|Hadd].
  { rewrite (invoke_run id (deliver Added) o _ Hg). cbn [fst snd].
    split; [split; reflexivity|]. intros _. apply get_set_same. }
  assert (Hno : Some ty <> Some "ADD") by congruence.
  repeat match goal with
         | |- context [String.eqb ty ?s] => destruct (String.eqb ty s)
         end;
    try rewrite (invoke_run id _ o _ Hg); cbn [fst snd deliver];
    (split; [split; [discriminate | intros H; destruct (Hno H)]
            |intros H; destruct (Hno H)]).
Qed.

Lemma new_target_accepts_only_add_witness :
  let w := fst (open no_faults (World_new "p")) in
  let o := this (fst (addTarget no_faults 1 "c" "k" "v" w)) in
  snd (_onTargetChange (mkTargetChange (Some [1]) (Some "ADD") None) o)
  = inr tt
  /\ snd (_onTargetChange (mkTargetChange (Some [1]) (Some "CURRENT") None) o)
     <> inr tt.
Proof.
  intros w o. split.
  - apply (new_target_accepts_only_add no_faults w 1 "c" "k" "v"
             (mkTargetChange (Some [1]) (Some "ADD") None) eq_refl eq_refl).
    reflexivity.
  - intros H.
    apply (new_target_accepts_only_add no_faults w 1 "c" "k" "v"
             (mkTargetChange (Some [1]) (Some "CURRENT") None) eq_refl eq_refl)
      in H.
    discriminate H.
Defined.

(** ** The script *)

Lemma fire_frame (cb : Callback) (w : World) :
  calls (fst (fire cb w)) = calls w
  /\ _stream (this (fst (fire cb w))) = _stream (this w)
  /\ _closed (this (fst (fire cb w))) = _closed (this w)
  /\ JsMap.keys (_targets (this (fst (fire cb w))))
     = JsMap.keys (_targets (this w)).
Proof.
  destruct cb as [h|h err|h msg]; cbn [fire].
  - unfold fire_onOpen. run_eff.
    destruct (registered cbOpen h w); cbn; auto.
  - unfold fire_onClose. run_eff.
    destruct (registered cbClose h w); [|cbn; auto].
    destruct err; cbn; auto.
  - rewrite fire_onMessage_run.
    destruct (registered cbMessage h w); [|cbn; auto].
    destruct (only_targets_onMessageReceived msg (this w)) as (m & Hm & Hk).
    cbn [fst]. rewrite Hm. cbn. auto.
Qed.

Lemma acquisitions_app (cs cs' : list TransportCall) :
  acquisitions (cs ++ cs') = (acquisitions cs + acquisitions cs')%nat.
Proof.
  induction cs as [|c cs IH]; cbn; auto. destruct c; cbn; auto.
Qed.

Lemma sends_app (cs cs' : list TransportCall) :
  sends (cs ++ cs') = (sends cs + sends cs')%nat.
Proof.
  induction cs as [|c cs IH]; cbn; auto. destruct c; cbn; auto.
Qed.

(** [open()] asks the connection for at most one stream. *)
Lemma open_acquisitions (faults : Faults) (w : World) :
  (acquisitions (calls (fst (open faults w)))
   <= S (acquisitions (calls w)))%nat
  /\ sends (calls (fst (open faults w))) = sends (calls w).
Proof.
  unfold open. run_eff.
  destruct (is_some (_stream (this w))); [cbn; lia|].
  destruct (_closed (this w)); [cbn; lia|].
  run_eff.
  repeat match goal with
         | |- context [faults ?call] => destruct (faults call); run_eff
         end;
    cbn [calls log_call set_streams set_this fst];
    rewrite ?acquisitions_app, ?sends_app; cbn; lia.
Qed.

(** What is true of [main] at each of its suspension points and at its
    end. *)
Lemma main_try_facts (faults : Faults) (w : World) (out : list string) :
  _stream (this w) = Some O -> _closed (this w) = false ->
  _targets (this w) = [] ->
  sends (calls w) = O -> releases O (calls w) = O ->
  let m := main_try faults w out in
  _closed (this (world m)) = true
  /\ sends (calls (world m)) = 1%nat
  /\ releases O (calls (world m)) = 1%nat
  /\ acquisitions (calls (world m)) = acquisitions (calls w)
  /\ console m = out ++ ["Adding target to watch stream";
                             "Closing watch stream"]
  /\ match pc m with
     | AwaitingOpen _ => False
     | AwaitingClose _ thrown =>
         thrown = None -> JsMap.has (_targets (this (world m))) 1 = true
     | Finished r => exists e, r = inl e
     end.
Proof.
  intros Hs Hc Ht Hsends Hrel. cbv zeta. unfold main_try.
  rewrite addTarget_run, Hs, Hc, Ht. cbn [JsMap.has JsMap.get]. cbv zeta.
  match goal with |- context [faults ?call] => destruct (faults call) end;
    rewrite close_run;
    cbn [this log_call set_this set_targets _closed _stream];
    rewrite Hc, Hs; cbv zeta;
    match goal with |- context [faults ?call] => destruct (faults call) end;
    cbn [world console pc this calls log_call set_this set_closed _closed
           _targets set_targets];
    rewrite ?sends_app, ?releases_app, ?acquisitions_app, ?Hsends, ?Hrel;
    unfold log; rewrite <- ?app_assoc; cbn;
    repeat split; eauto; try lia; try discriminate.
Qed.

Lemma main_start_invariant (faults : Faults) (projectId host : string) :
  main_invariant projectId host (main_start faults projectId host).
Proof.
  unfold main_start, main_invariant.
  pose proof (open_acquisitions faults (World_new projectId)) as [Hacq Hsnd].
  pose proof (open_shape faults (World_new projectId) eq_refl eq_refl)
    as Hshape.
  cbv zeta in Hshape.
  destruct (open faults (World_new projectId)) as [w [e|a]] eqn:Hopen;
    cbn [world console pc fst snd] in *.
  - split; [cbn in Hacq; lia|]. left.
    destruct Hshape as [(_ & Ht & _)|[(_ & Ht & _)|(Hr & _)]];
      try discriminate Hr; rewrite Ht; cbn; eauto.
  - split; [cbn in Hacq; lia|].
    destruct Hshape as [(Hthrew & _)|[(Hthrew & _)
                       |(_ & Ht & _ & cs & Hcs & Hfree)]];
      try discriminate Hthrew.
    rewrite Ht, Hsnd, Hcs. cbn [streams World_new List.length app].
    rewrite Hfree. repeat split.
Qed.

Lemma fire_invariant (projectId host : string) (cb : Callback) (m : Main) :
  main_invariant projectId host m ->
  main_invariant projectId host
    (mkMain (fst (fire cb (world m))) (console m) (pc m)).
Proof.
  unfold main_invariant. cbn [world console pc].
  destruct (fire_frame cb (world m)) as (-> & -> & -> & Hk).
  assert (Hhas : forall id,
             JsMap.has (_targets (this (world m))) id = true ->
             JsMap.has (_targets (this (fst (fire cb (world m))))) id = true).
  { intros id H. apply has_in_keys. rewrite Hk. apply has_in_keys, H. }
  intros [Hacq Hpc]. split; [exact Hacq|].
  destruct (pc m) as [a|a thrown|r].
  - destruct Hpc as (Hs & Hc & Ht & Hrest).
    split; [exact Hs|]. split; [exact Hc|]. split; [|exact Hrest].
    rewrite Ht in Hk. unfold JsMap.keys in Hk.
    destruct (_targets (this (fst (fire cb (world m)))));
      [reflexivity | discriminate].
  - destruct Hpc as (Hc & Hs & Hr & Hcon & Hreg).
    split; [exact Hc|]. split; [exact Hs|]. split; [exact Hr|].
    split; [exact Hcon|]. intros Hth. apply Hhas, Hreg, Hth.
  - destruct Hpc as [Hopen|(Hc & Hs & Hr & Hreg)]; [left; exact Hopen|].
    right. split; [exact Hc|]. split; [exact Hs|]. split; [exact Hr|].
    intros Hok. destruct (Hreg Hok) as [Hh Hcon].
    split; [apply Hhas, Hh | exact Hcon].
Qed.

Lemma main_resume_invariant (faults : Faults) (projectId host : string)
  (m : Main) :
  main_invariant projectId host m ->
  main_invariant projectId host (main_resume faults m).
Proof.
  intros Hinv. unfold main_resume.
  destruct (pc m) as [a|a thrown|r] eqn:Hpc; [| |exact Hinv].
  - destruct (outcome (world m) a) as [| |e] eqn:Hout; [exact Hinv| |].
    + unfold main_invariant in *. rewrite Hpc in Hinv.
      destruct Hinv as (Hacq & Hs & Hc & Ht & Hsnd & Hrel & Hcon).
      cbn [world console pc].
      pose proof (main_try_facts faults (world m) (console m)
                    Hs Hc Ht Hsnd Hrel) as Hfacts.
      cbv zeta in Hfacts.
      destruct Hfacts as (Hc' & Hs' & Hr' & Ha' & Hcon' & Hpc').
      split; [rewrite Ha'; exact Hacq|].
      assert (Hlines : console (main_try faults (world m) (console m))
                       = [greeting projectId host;
                          "Adding target to watch stream";
                          "Closing watch stream"])
        by (rewrite Hcon', Hcon; reflexivity).
      destruct (pc (main_try faults (world m) (console m)))
        as [a'|a' thrown|r]; [destruct Hpc'| |].
      * repeat split; auto.
      * right. repeat split; auto;
          destruct Hpc' as [e' ->]; discriminate.
    + unfold main_invariant in *. rewrite Hpc in Hinv.
      cbn [world console pc].
      destruct Hinv as (Hacq & Hs & Hc & Ht & Hsnd & Hrel & Hcon).
      split; [exact Hacq|]. left. eauto.
  - destruct (outcome (world m) a) as [| |e] eqn:Hout; [exact Hinv| |].
    + unfold main_invariant in *. rewrite Hpc in Hinv.
      destruct Hinv as (Hacq & Hc & Hsnd & Hrel & Hcon & Hreg).
      unfold main_finally_end, log. cbn [world console pc].
      split; [exact Hacq|]. right. repeat split; auto.
      * destruct thrown; [discriminate|]. auto.
      * rewrite Hcon. reflexivity.
    + unfold main_invariant in *. rewrite Hpc in Hinv.
      cbn [world console pc].
      destruct Hinv as (Hacq & Hc & Hsnd & Hrel & Hcon & Hreg).
      split; [exact Hacq|]. right. repeat split; auto; discriminate.
Qed.

Lemma main_reaches_invariant (faults : Faults) (projectId host : string)
  (callbacks : list Callback) :
  main_invariant projectId host (main faults projectId host callbacks).
Proof.
  unfold main.
  assert (H : forall m, main_invariant projectId host m ->
                        main_invariant projectId host
                          (fold_left (main_step faults) callbacks m)).
  { induction callbacks as [|cb callbacks IH]; intros m Hm; cbn [fold_left].
    - exact Hm.
    - apply IH. unfold main_step.
      apply main_resume_invariant, main_resume_invariant, fire_invariant, Hm. }
  apply H, main_resume_invariant, main_resume_invariant, main_start_invariant.
Qed.

(** X18: [main] closes what it opened.  Whatever the transport does and
    whichever callbacks fire, [main] asks for at most one stream and sends at
    most one message; it calls [close()] exactly when it has got past
    [await open()] and tried to add the target, also when [addTarget] threw
    ([finally]), and the stream is then released once; and it ends without
    an error only with target [1] registered, the stream closed, and the
    four lines logged in order. *)
Theorem main_closes_what_it_opened (faults : Faults)
  (projectId host : string) (callbacks : list Callback) :
  let m := main faults projectId host callbacks in
  (acquisitions (calls (world m)) <= 1)%nat
  /\ (sends (calls (world m)) <= 1)%nat
  /\ (sends (calls (world m)) = 1%nat <-> _closed (this (world m)) = true)
  /\ (_closed (this (world m)) = true ->
      releases O (calls (world m)) = 1%nat)
  /\ (pc m = Finished (inr tt) ->
      _closed (this (world m)) = true
      /\ JsMap.has (_targets (this (world m))) 1 = true
      /\ console m = [greeting projectId host;
                      "Adding target to watch stream";
                      "Closing watch stream";
                      "Watch stream closed"]).
Proof.
  cbv zeta.
  pose proof (main_reaches_invariant faults projectId host callbacks)
    as [Hacq Hpc].
  split; [exact Hacq|].
  destruct (pc (main faults projectId host callbacks)) as [a|a thrown|r].
  - destruct Hpc as (_ & Hc & _ & Hs & _). rewrite Hc, Hs.
    split; [lia|]. split; [split; discriminate|].
    split; discriminate.
  - destruct Hpc as (Hc & Hs & Hr & _). rewrite Hc, Hs.
    split; [lia|]. split; [split; reflexivity|].
    split; [intros _; exact Hr | discriminate].
  - destruct Hpc as [(Hc & Hs & e & ->)|(Hc & Hs & Hr & Hok)];
      rewrite Hc, Hs.
    + split; [lia|]. split; [split; discriminate|].
      split; discriminate.
    + split; [lia|]. split; [split; reflexivity|].
      split; [intros _; exact Hr|].
      intros [= ->]. destruct (Hok eq_refl) as [Hh Hcon]. auto.
Qed.

Lemma main_closes_what_it_opened_witness :
  let m := main no_faults "p" "firestore.googleapis.com"
             [OnOpenFires O; OnCloseFires O None] in
  pc m = Finished (inr tt)
  /\ JsMap.has (_targets (this (world m))) 1 = true
  /\ releases O (calls (world m)) = 1%nat.
Proof.
  intros m.
  destruct (main_closes_what_it_opened no_faults "p"
              "firestore.googleapis.com" [OnOpenFires O; OnCloseFires O None])
    as (_ & _ & _ & Hrel & Hdone).
  fold m in Hrel, Hdone.
  assert (Hpc : pc m = Finished (inr tt)) by reflexivity.
  destruct (Hdone Hpc) as (Hc & Hreg & _).
  split; [exact Hpc|]. split; [exact Hreg | exact (Hrel Hc)].
Defined.

(** X19: a call of [open()] that throws leaves the [WatchStream] object as it
    was: no stream is installed, nothing is registered or closed on the
    object, and the close-completion promise is untouched; only calls on
    the transport may have been made. *)
Theorem failed_open_changes_nothing (faults : Faults) (w : World) :
  threw (open faults w) = true ->
  this (fst (open faults w)) = this w.
Proof.
  intros Hthrew.
  destruct (_stream (this w)) as [h0|] eqn:Hs.
  { rewrite open_unchanged_when_guarded by (left; congruence). reflexivity. }
  destruct (_closed (this w)) eqn:Hc.
  { rewrite open_unchanged_when_guarded by (right; exact Hc). reflexivity. }
  destruct (open_shape faults w Hs Hc)
    as [(_ & Ht & _)|[(_ & Ht & _)|(Hr & _)]]; [exact Ht | exact Ht|].
  unfold threw in Hthrew. rewrite Hr in Hthrew. discriminate.
Qed.

Lemma failed_open_changes_nothing_witness :
  let faults : Faults :=
    fun c => match c with
             | StreamOnMessage _ => Some (TransportError "onMessage")
             | _ => None
             end in
  this (fst (open faults (World_new "p"))) = WatchStream_new "p".
Proof.
  intros faults.
  exact (failed_open_changes_nothing faults (World_new "p") eq_refl).
Defined.

(** ** The effect of a [targetChange] *)









(** ** The life cycle of a [WatchStream] *)

Lemma open_requests (faults : Faults) (w : World) :
  _stream (this w) = None -> _closed (this w) = false ->
  acquisitions (calls (fst (open faults w))) = S (acquisitions (calls w)).
Proof.
  intros Hs Hc. unfold open. run_eff. rewrite Hs, Hc. cbn [is_some].
  run_eff.
  repeat match goal with
         | |- context [faults ?call] => destruct (faults call); run_eff
         end;
    cbn [calls log_call set_streams set_this fst];
    rewrite ?acquisitions_app; cbn; lia.
Qed.

(** Without a fault of the transport [open()] returns once past its
    guards. *)
Lemma open_no_faults (w : World) :
  _stream (this w) = None -> _closed (this w) = false ->
  snd (open no_faults w)
  = inr (Awaits (OpenDeferred (List.length (streams w)))).
Proof.
  intros Hs Hc. unfold open. run_eff. rewrite Hs, Hc. cbn [is_some].
  run_eff. reflexivity.
Qed.

(** What a throwing [open()] that passed its guards did to the streams. *)
Lemma open_failed (faults : Faults) (w : World) :
  _stream (this w) = None -> _closed (this w) = false ->
  threw (open faults w) = true ->
  let h := List.length (streams w) in
  let w' := fst (open faults w) in
  this w' = this w
  /\ ((streams w' = streams w
       /\ forall h', releases h' (calls w') = releases h' (calls w))
      \/ (List.length (streams w') = S h
          /\ releases h (calls w') = S (releases h (calls w))
          /\ forall h', h' <> h ->
                        releases h' (calls w') = releases h' (calls w))).
Proof.
  intros Hs Hc Hthrew. cbv zeta.
  destruct (open_shape faults w Hs Hc)
    as [(_ & Ht & Hst & Hcs)
       |[(_ & Ht & Hlen & cs & Hcs & Hfree)
        |(Hr & _)]].
  - split; [exact Ht|]. left. split; [exact Hst|].
    intros h'. rewrite Hcs, releases_app. cbn. lia.
  - split; [exact Ht|]. right. split; [exact Hlen|]. split.
    + rewrite Hcs, !releases_app, Hfree, releases_single, Nat.eqb_refl. lia.
    + intros h' Hne. rewrite Hcs, !releases_app, Hfree, releases_single.
      destruct (Nat.eqb_spec (List.length (streams w)) h'); [congruence|lia].
  - unfold threw in Hthrew. rewrite Hr in Hthrew. discriminate.
Qed.

Lemma open_succeeded (faults : Faults) (w w' : World) (a : Async) :
  open faults w = (w', inr a) ->
  a = Awaits (OpenDeferred (List.length (streams w)))
  /\ this w' = set_stream (Some (List.length (streams w))) (this w)
  /\ List.length (streams w') = S (List.length (streams w))
  /\ forall h', releases h' (calls w') = releases h' (calls w).
Proof.
  intros Hopen. destruct (open_passed faults w w' a Hopen) as [Hs Hc].
  destruct (open_shape faults w Hs Hc)
    as [(Hthrew & _)|[(Hthrew & _)|(Hr & Ht & Hlen & cs & Hcs & Hfree)]];
    rewrite Hopen in *; cbn [fst snd] in *.
  - discriminate Hthrew.
  - discriminate Hthrew.
  - split; [congruence|]. split; [exact Ht|]. split; [exact Hlen|].
    intros h'. rewrite Hcs, releases_app, Hfree. lia.
Qed.

Lemma run_released (history : list (Faults * Step)) :
  forall w,
    channel_invariant w ->
    (forall h, (h < List.length (streams w))%nat -> in_use w h = false ->
               releases h (calls w) = 1%nat) ->
    forall h, (h < List.length (streams (run history w)))%nat ->
              in_use (run history w) h = false ->
              releases h (calls (run history w)) = 1%nat.
Proof.
  induction history as [|[faults l] history IH]; intros w Hinv Hex;
    cbn [run].
  - exact Hex.
  - apply IH; [apply step_invariant, Hinv | apply step_released; auto].
Qed.

(** C7, amended: [open()] returns only when no stream is installed and the
    [WatchStream] is not closed; it then installs the stream it obtained and
    releases none.  Called with a stream installed, or after [close()], it
    throws and changes nothing: no stream is requested from the connection.
    Both conditions last: after a call of [open()] that returned, or after a
    call of [close()], every later call of [open()] throws, whatever
    happened in between.  A call of [open()] that throws, for whatever
    reason, leaves the [WatchStream] as it was; when it throws after its
    guards it has requested one stream and, if the connection handed one
    out, has released that stream once and no other, so a later call of
    [open()] passes the guards again.  [close()] on a closed [WatchStream]
    returns at once and changes nothing; a first [close()] releases the
    installed stream once and no other; [_closed] never goes back to
    [false]; and in every history of a new [WatchStream] each stream handed
    out was released exactly once, except the installed stream of a
    [WatchStream] that is not closed, which was not released. *)
Theorem WatchStream_lifecycle :
  (forall faults w w' a,
      open faults w = (w', inr a) ->
      _stream (this w) = None /\ _closed (this w) = false)
  /\ (forall faults w,
        _stream (this w) <> None \/ _closed (this w) = true ->
        exists e, open faults w = (w, inl (WatchError e)))
  /\ (forall faults w w' a,
        open faults w = (w', inr a) ->
        forall history faults',
        exists e,
          open faults' (run history w')
          = (run history w', inl (WatchError e)))
  /\ (forall faults w history faults',
      exists e,
        open faults' (run history (fst (close faults w)))
        = (run history (fst (close faults w)), inl (WatchError e)))
  /\ (forall faults w,
        _closed (this w) = true -> close faults w = (w, inr Returned))
  /\ (forall faults w, _closed (this (fst (close faults w))) = true)
  /\ (forall history w,
        _closed (this w) = true -> _closed (this (run history w)) = true)
  /\ (forall projectId history h,
        (releases h (calls (run history (World_new projectId))) <= 1)%nat)
  /\ (forall faults w w' a,
        open faults w = (w', inr a) ->
        a = Awaits (OpenDeferred (List.length (streams w)))
        /\ this w' = set_stream (Some (List.length (streams w))) (this w)
        /\ List.length (streams w') = S (List.length (streams w))
        /\ acquisitions (calls w') = S (acquisitions (calls w))
        /\ forall h', releases h' (calls w') = releases h' (calls w))
  /\ (forall faults w,
        threw (open faults w) = true ->
        this (fst (open faults w)) = this w)
  /\ (forall faults w,
        _stream (this w) = None -> _closed (this w) = false ->
        threw (open faults w) = true ->
        acquisitions (calls (fst (open faults w)))
        = S (acquisitions (calls w))
        /\ ((streams (fst (open faults w)) = streams w
             /\ forall h', releases h' (calls (fst (open faults w)))
                           = releases h' (calls w))
            \/ (List.length (streams (fst (open faults w)))
                = S (List.length (streams w))
                /\ releases (List.length (streams w))
                     (calls (fst (open faults w)))
                   = S (releases (List.length (streams w)) (calls w))
                /\ forall h', h' <> List.length (streams w) ->
                              releases h' (calls (fst (open faults w)))
                              = releases h' (calls w)))
        /\ (forall faults',
              acquisitions
                (calls (fst (open faults' (fst (open faults w)))))
              = S (acquisitions (calls (fst (open faults w)))))
        /\ snd (open no_faults (fst (open faults w)))
           = inr (Awaits
                    (OpenDeferred
                       (List.length (streams (fst (open faults w)))))))
  /\ (forall faults w,
        _closed (this w) = false ->
        this (fst (close faults w)) = set_closed true (this w)
        /\ streams (fst (close faults w)) = streams w
        /\ forall h,
             releases h (calls (fst (close faults w)))
             = (releases h (calls w)
                + if in_use w h then 1 else 0)%nat)
  /\ (forall projectId history h,
        (h < List.length (streams (run history (World_new projectId))))%nat ->
        releases h (calls (run history (World_new projectId)))
        = if in_use (run history (World_new projectId)) h
          then O else 1%nat).
Proof.
  split; [exact open_passed|].
  split; [exact open_guarded|].
  split.
  { intros faults w w' a Hopen history faults'.
    destruct (open_installs faults w w' a Hopen) as (h & Hs & _).
    apply open_guarded. left.
    rewrite (run_stream_kept history w' h Hs). discriminate. }
  split.
  { intros faults w history faults'. apply open_guarded. right.
    apply run_closed_kept, close_closes. }
  split.
  { intros faults w Hc. rewrite close_run, Hc. reflexivity. }
  split; [exact close_closes|].
  split; [exact run_closed_kept|].
  split.
  { intros projectId history h.
    apply (released_once _ (run_invariant history _
                              (new_world_invariant projectId))). }
  split.
  { intros faults w w' a Hopen.
    destruct (open_succeeded faults w w' a Hopen) as (Ha & Ht & Hlen & Hrel).
    destruct (open_passed faults w w' a Hopen) as [Hs Hc].
    pose proof (open_requests faults w Hs Hc) as Hacq.
    rewrite Hopen in Hacq. cbn [fst] in Hacq. auto. }
  split.
  { intros faults w Hthrew.
    destruct (_stream (this w)) as [h0|] eqn:Hs.
    { rewrite open_unchanged_when_guarded by (left; congruence).
      reflexivity. }
    destruct (_closed (this w)) eqn:Hc.
    { rewrite open_unchanged_when_guarded by (right; exact Hc).
      reflexivity. }
    apply (open_failed faults w Hs Hc Hthrew). }
  split.
  { intros faults w Hs Hc Hthrew.
    destruct (open_failed faults w Hs Hc Hthrew) as [Ht Hrel].
    split; [apply open_requests; assumption|]. split; [exact Hrel|].
    assert (Hs' : _stream (this (fst (open faults w))) = None)
      by (rewrite Ht; exact Hs).
    assert (Hc' : _closed (this (fst (open faults w))) = false)
      by (rewrite Ht; exact Hc).
    split; [intros faults'; apply open_requests; assumption|].
    apply open_no_faults; assumption. }
  split.
  { intros faults w Hc. rewrite close_run, Hc. cbv zeta.
    unfold in_use. rewrite Hc.
    destruct (_stream (this w)) as [h0|] eqn:Hs;
      cbn [fst streams calls this log_call set_this negb].
    - repeat split. intros h.
      rewrite releases_app, releases_single, Bool.andb_true_r.
      destruct (Nat.eqb h0 h); reflexivity.
    - repeat split. intros h. lia. }
  intros projectId history h Hh.
  destruct (in_use (run history (World_new projectId)) h) eqn:Hu.
  - unfold in_use in Hu.
    destruct (_stream (this (run history (World_new projectId))))
      as [h0|] eqn:Hs; [|discriminate].
    apply Bool.andb_true_iff in Hu. destruct Hu as [Heq Hc].
    apply Nat.eqb_eq in Heq. subst h0.
    apply (installed_held _ (run_invariant history _
                               (new_world_invariant projectId)));
      [exact Hs|].
    destruct (_closed _); [discriminate|reflexivity].
  - apply (run_released history (World_new projectId)); auto.
    + apply new_world_invariant.
    + cbn. intros h0 Hlt. lia.
Qed.

Lemma WatchStream_lifecycle_witness :
  let faulty : Faults :=
    fun c =>
      match c with
      | StreamOnMessage _ => Some (TransportError "onMessage")
      | _ => None
      end in
  let w0 := World_new "p" in
  let w1 := fst (open no_faults w0) in
  let w2 := fst (close no_faults w1) in
  let wf := fst (open faulty w0) in
  (exists e, open no_faults w1 = (w1, inl (WatchError e)))
  /\ (exists e, open no_faults w2 = (w2, inl (WatchError e)))
  /\ close no_faults w2 = (w2, inr Returned)
  /\ (releases O (calls (fst (close no_faults w2))) <= 1)%nat
  /\ (this w1 = set_stream (Some O) (this w0)
      /\ releases O (calls w1) = O)
  /\ (this wf = this w0
      /\ acquisitions (calls wf) = 1%nat
      /\ releases O (calls wf) = 1%nat
      /\ snd (open no_faults wf) = inr (Awaits (OpenDeferred 1%nat)))
  /\ releases O (calls w2) = 1%nat
  /\ (releases O (calls (run [(faulty, CallOpen); (no_faults, CallOpen)]
                           w0)) = 1%nat
      /\ releases 1%nat
           (calls (run [(faulty, CallOpen); (no_faults, CallOpen)] w0)) = O).
Proof.
  intros faulty w0 w1 w2 wf.
  destruct WatchStream_lifecycle
    as (_ & Hguard & Hagain & Hafter & Hnoop & _ & _ & Honce
        & Hinstall & Hsame & Hfailed & Hclose & Hexact).
  split.
  { exact (Hagain no_faults w0 w1 (Awaits (OpenDeferred O)) eq_refl
             [] no_faults). }
  split.
  { exact (Hafter no_faults w1 [] no_faults). }
  split.
  { apply Hnoop. reflexivity. }
  split.
  { exact (Honce "p" [(no_faults, CallOpen); (no_faults, CallClose);
                      (no_faults, CallClose)] O). }
  split.
  { destruct (Hinstall no_faults w0 w1 (Awaits (OpenDeferred O)) eq_refl)
      as (_ & Ht & _ & _ & Hrel).
    split; [exact Ht | exact (Hrel O)]. }
  split.
  { split; [exact (Hsame faulty w0 eq_refl)|].
    destruct (Hfailed faulty w0 eq_refl eq_refl eq_refl)
      as (Hacq & [[Hst _]|(_ & Hrel & _)] & _ & Hretry).
    - discriminate Hst.
    - split; [exact Hacq|]. split; [exact Hrel | exact Hretry]. }
  split.
  { destruct (Hclose no_faults w1 eq_refl) as (_ & _ & Hrel).
    exact (Hrel O). }
  split.
  - apply (Hexact "p" [(faulty, CallOpen); (no_faults, CallOpen)] O).
    cbn. lia.
  - apply (Hexact "p" [(faulty, CallOpen); (no_faults, CallOpen)] 1%nat).
    cbn. lia.
Defined.
